(** * Numeric helpers of the imputation toolkit ([utils.py])

    A shallow embedding of [normalization], [renormalization], [rounding],
    [rmse_loss], the three samplers and [get_data], and the properties the
    specification states about them.

    Conventions of the embedding.
    - A Python call that can raise returns a [result]; [Raise e] is the
      exception, [Ok v] the returned value.
    - Array elements are taken from a carrier with the operations numpy
      applies to them ([Scalar]).  Two carriers are given: IEEE binary64
      ([float], the dtype the code runs on; every operation is the kernel's
      primitive one, so concrete runs evaluate to the very doubles numpy
      produces) and the rationals extended with one not-a-number ([xnum]),
      on which the algebraic laws of the formulas are proved exactly.
    - A 2-D array is its list of rows together with its width (so that an
      array with no rows still has a shape).
    - numpy's process-wide generator is a state passed through the samplers;
      what it draws is left to a [Generator] instance. *)

From Stdlib Require Import ZArith QArith Qcanon Qround Floats Uint63 Lia Lqa.
From stdpp Require Import base option list gmap strings.

Set Warnings "-inexact-float".

(* ================================================================= *)
(** ** Exceptions *)

Inductive exn : Set := ValueError | IndexError | TypeError.

Inductive result (A : Type) : Type :=
| Ok (a : A)
| Raise (e : exn).
Arguments Ok {A} a.
Arguments Raise {A} e.

#[global] Instance result_ret : MRet result := @Ok.
#[global] Instance result_bind : MBind result :=
  λ A B f m, match m with Ok a => f a | Raise e => Raise e end.

(** [for i in range(...)]: the body runs once per index, in order, on the
    state left by the previous iteration; a raise ends the loop. *)
Fixpoint for_range {St : Type} (body : nat → St → result St)
    (indices : list nat) (s : St) : result St :=
  match indices with
  | [] => Ok s
  | i :: rest => s' ← body i s; for_range body rest s'
  end.

(* ================================================================= *)
(** ** Array elements *)

(** The operations numpy applies to the elements of a floating array. *)
Class Scalar (F : Type) : Type := {
  s_add : F → F → F;
  s_sub : F → F → F;
  s_mul : F → F → F;
  s_div : F → F → F;
  s_leb : F → F → bool;          (* [<=], false when an operand is nan *)
  s_ltb : F → F → bool;          (* [<] *)
  s_eqb : F → F → bool;          (* [==] *)
  s_isnan : F → bool;            (* [np.isnan] *)
  s_rint : F → F;                (* [np.round]: nearest integer, ties to even *)
  s_zero : F;
  s_one : F;
  s_eps : F                      (* the literal [1e-6] *)
}.

(** [np.sqrt], needed by [rmse_loss] only. *)
Class Sqrt (F : Type) : Type := s_sqrt : F → F.

(* ----------------------------------------------------------------- *)
(** *** binary64 *)

Definition two52 : float := 4503599627370496%float.

Definition float_sign (x : float) : bool :=
  match PrimFloat.classify x with
  | NNormal | NSubn | NZero | NInf => true
  | _ => false
  end.

(** Round to the nearest integer, ties to even.  Below [2^52] in magnitude,
    adding and removing [2^52] rounds to an integer in the default rounding
    mode; from [2^52] on every double is an integer.  The sign is kept, also
    on zero. *)
Definition float_rint (x : float) : float :=
  if PrimFloat.is_nan x then x
  else if PrimFloat.leb two52 (PrimFloat.abs x) then x
  else
    let r := PrimFloat.sub (PrimFloat.add (PrimFloat.abs x) two52) two52 in
    if float_sign x then PrimFloat.opp r else r.

#[global] Instance float_scalar : Scalar float := {
  s_add := PrimFloat.add;
  s_sub := PrimFloat.sub;
  s_mul := PrimFloat.mul;
  s_div := PrimFloat.div;
  s_leb := PrimFloat.leb;
  s_ltb := PrimFloat.ltb;
  s_eqb := PrimFloat.eqb;
  s_isnan := PrimFloat.is_nan;
  s_rint := float_rint;
  s_zero := 0%float;
  s_one := 1%float;
  s_eps := 1e-6%float
}.

#[global] Instance float_sqrt : Sqrt float := PrimFloat.sqrt.

(* ----------------------------------------------------------------- *)
(** *** Exact rationals with a not-a-number *)

(** [None] is not-a-number; it absorbs every operation and compares false
    with everything.  There is no rounding, no overflow and no infinity: a
    division by zero yields not-a-number. *)
Definition xnum : Type := option Qc.

Definition xlift2 (f : Qc → Qc → Qc) (x y : xnum) : xnum :=
  match x, y with
  | Some a, Some b => Some (f a b)
  | _, _ => None
  end.

Definition xdiv (x y : xnum) : xnum :=
  match x, y with
  | Some a, Some b => if Qeq_bool b 0 then None else Some (a / b)%Qc
  | _, _ => None
  end.

Definition xcmp (f : Q → Q → bool) (x y : xnum) : bool :=
  match x, y with
  | Some a, Some b => f a b
  | _, _ => false
  end.

Definition Qlt_bool (a b : Q) : bool := negb (Qle_bool b a).

(** Nearest integer of a rational, ties to even. *)
Definition Qrint (q : Q) : Z :=
  let n := Qfloor q in
  match Qcompare (q - inject_Z n) (1 # 2) with
  | Lt => n
  | Gt => (n + 1)%Z
  | Eq => if Z.even n then n else (n + 1)%Z
  end.

Definition xrint (x : xnum) : xnum :=
  match x with
  | Some a => Some (Q2Qc (inject_Z (Qrint a)))
  | None => None
  end.

Definition xisnan (x : xnum) : bool :=
  match x with Some _ => false | None => true end.

#[global] Instance xnum_scalar : Scalar xnum := {
  s_add := xlift2 Qcplus;
  s_sub := xlift2 Qcminus;
  s_mul := xlift2 Qcmult;
  s_div := xdiv;
  s_leb := xcmp Qle_bool;
  s_ltb := xcmp Qlt_bool;
  s_eqb := xcmp Qeq_bool;
  s_isnan := xisnan;
  s_rint := xrint;
  s_zero := Some (Q2Qc 0);
  s_one := Some (Q2Qc 1);
  s_eps := Some (Q2Qc (1 # 1000000))
}.

(** A rational literal [n / d] as an array element. *)
Definition xq (n : Z) (d : positive) : xnum := Some (Q2Qc (n # d)).

(* ================================================================= *)
(** ** Arrays *)

(** A 2-D array of shape [(length rows, ncols)]. *)
Record ndarray (A : Type) : Type := mk_array {
  ncols : nat;
  rows : list (list A)
}.
Arguments mk_array {A} _ _.
Arguments ncols {A} _.
Arguments rows {A} _.

Definition nrows {A} (a : ndarray A) : nat := length (rows a).

Definition array_wf {A} (a : ndarray A) : Prop :=
  Forall (λ r, length r = ncols a) (rows a).

(** The array written as a literal list of rows. *)
Definition array_of {A} (rs : list (list A)) : ndarray A :=
  mk_array (match rs with r :: _ => length r | [] => 0 end) rs.

Definition cell {A} (a : ndarray A) (r i : nat) : option A :=
  row ← rows a !! r; row !! i.

Section Columns.
Context {A : Type}.

(** [a[:, i]] read: the column, or [IndexError] past the width. *)
Definition get_col (i : nat) (a : ndarray A) : result (list A) :=
  if decide (i < ncols a) then
    match mapM (λ r : list A, r !! i) (rows a) with
    | Some c => Ok c
    | None => Raise IndexError
    end
  else Raise IndexError.

(** [a[:, i] = c]: [c] must have one entry per row, or a single entry that
    is then written to every row; anything else cannot be broadcast. *)
Definition set_col (i : nat) (c : list A) (a : ndarray A) : result (ndarray A) :=
  if decide (i < ncols a) then
    if decide (length c = nrows a) then
      Ok (mk_array (ncols a) (zip_with (λ r x, <[i:=x]> r) (rows a) c))
    else
      match c with
      | [x] => Ok (mk_array (ncols a) (map (λ r, <[i:=x]> r) (rows a)))
      | _ => Raise ValueError
      end
  else Raise IndexError.

Definition map2d {B} (f : A → B) (a : ndarray A) : ndarray B :=
  mk_array (ncols a) (map (map f) (rows a)).

End Columns.

(** An elementwise binary operation on two arrays of one shape.  (numpy
    would also stretch an axis of length one; the functions below call it on
    arrays of equal shape, and every other pair is a shape error here.) *)
Definition zip2d {A B C} (f : A → B → C) (a : ndarray A) (b : ndarray B)
    : result (ndarray C) :=
  if decide (ncols a = ncols b ∧ nrows a = nrows b) then
    Ok (mk_array (ncols a) (zip_with (zip_with f) (rows a) (rows b)))
  else Raise ValueError.

(** [a[mask] = v] for a boolean [mask]: the mask must have the array's
    shape. *)
Definition mask_assign {A} (a : ndarray A) (mask : ndarray bool) (v : A)
    : result (ndarray A) :=
  if decide (ncols mask = ncols a ∧ nrows mask = nrows a) then
    Ok (mk_array (ncols a)
          (zip_with (zip_with (λ x (hit : bool), if hit then v else x))
                    (rows a) (rows mask)))
  else Raise IndexError.

(* ================================================================= *)
(** ** numpy primitives on elements *)

Section Numpy.
Context {F : Type} `{Scalar F}.

(** [np.fmin] and [np.fmax] of two elements: the second operand wins only
    when it is a number and the comparison fails. *)
Definition fmin (a b : F) : F := if s_leb a b || s_isnan b then a else b.
Definition fmax (a b : F) : F := if s_leb b a || s_isnan b then a else b.

(** [np.nanmin], [np.nanmax] of a 1-D slice: [fmin.reduce], [fmax.reduce],
    started at the first entry; an empty slice has no identity. *)
Definition nanmin (l : list F) : result F :=
  match l with
  | [] => Raise ValueError
  | x :: t => Ok (fold_left fmin t x)
  end.

Definition nanmax (l : list F) : result F :=
  match l with
  | [] => Raise ValueError
  | x :: t => Ok (fold_left fmax t x)
  end.

(** [np.sum] of a whole array: entries added in row-major order, starting
    from zero. *)
Definition np_sum (a : ndarray F) : F :=
  fold_left s_add (concat (rows a)) s_zero.

(** [np.unique] of a 1-D slice without nan: sorted, then each entry kept
    that differs from its predecessor. *)
Fixpoint sort_insert (x : F) (l : list F) : list F :=
  match l with
  | [] => [x]
  | y :: t => if s_leb x y then x :: y :: t else y :: sort_insert x t
  end.

Definition np_sort (l : list F) : list F := foldr sort_insert [] l.

Fixpoint drop_repeats (prev : F) (l : list F) : list F :=
  match l with
  | [] => []
  | y :: t => if s_eqb y prev then drop_repeats y t else y :: drop_repeats y t
  end.

Definition np_unique (l : list F) : list F :=
  match np_sort l with
  | [] => []
  | x :: t => x :: drop_repeats x t
  end.

(** What [parameters['min_val']] may hold: one number or a 1-D vector. *)
Inductive param : Type :=
| PScalar (x : F)
| PVector (v : list F).

(** [p[i]]: a plain number cannot be indexed. *)
Definition index (p : param) (i : nat) : result F :=
  match p with
  | PScalar _ => Raise TypeError
  | PVector v => match v !! i with Some x => Ok x | None => Raise IndexError end
  end.

(** [p + 1e-6]. *)
Definition param_add_eps (p : param) : param :=
  match p with
  | PScalar x => PScalar (s_add x s_eps)
  | PVector v => PVector (map (λ x, s_add x s_eps) v)
  end.

(** [c op p] for a column [c]: a number is applied to every entry; a vector
    is paired with the column entry by entry when the lengths agree, and a
    length of one on either side is stretched to the other. *)
Definition broadcast (op : F → F → F) (c : list F) (p : param) : result (list F) :=
  match p with
  | PScalar x => Ok (map (λ y, op y x) c)
  | PVector v =>
      if decide (length v = length c) then Ok (zip_with op c v)
      else
        match v, c with
        | [x], _ => Ok (map (λ y, op y x) c)
        | _, [y] => Ok (map (λ x, op y x) v)
        | _, _ => Raise ValueError
        end
  end.

End Numpy.

Arguments param F : clear implicits.

(* ================================================================= *)
(** ** The normalizer *)

Section Normalizer.
Context {F : Type} `{Scalar F}.

(** The dictionary [{'min_val': ..., 'max_val': ...}]. *)
Record norm_parameters : Type := mk_parameters {
  min_val : param F;
  max_val : param F
}.

(** One iteration of the fit-mode loop, on the state
    [(norm_data, min_val, max_val)]. *)
Definition fit_column (i : nat) (st : ndarray F * list F * list F)
    : result (ndarray F * list F * list F) :=
  let '(norm_data, mins, maxs) := st in
  (* min_val[i] = np.nanmin(norm_data[:,i]) *)
  c ← get_col i norm_data;
  m ← nanmin c;
  let mins := <[i:=m]> mins in
  (* norm_data[:,i] = norm_data[:,i] - np.nanmin(norm_data[:,i]) *)
  c ← get_col i norm_data;
  c' ← get_col i norm_data;
  m ← nanmin c';
  norm_data ← set_col i (map (λ x, s_sub x m) c) norm_data;
  (* max_val[i] = np.nanmax(norm_data[:,i]) *)
  c ← get_col i norm_data;
  M ← nanmax c;
  let maxs := <[i:=M]> maxs in
  (* norm_data[:,i] = norm_data[:,i] / (np.nanmax(norm_data[:,i]) + 1e-6) *)
  c ← get_col i norm_data;
  c' ← get_col i norm_data;
  M ← nanmax c';
  norm_data ← set_col i (map (λ x, s_div x (s_add M s_eps)) c) norm_data;
  Ok (norm_data, mins, maxs).

(** One iteration of the apply-mode loop.  The parameters are used whole,
    not indexed by [i]. *)
Definition apply_column (parameters : norm_parameters) (i : nat)
    (norm_data : ndarray F) : result (ndarray F) :=
  (* norm_data[:,i] = norm_data[:,i] - min_val *)
  c ← get_col i norm_data;
  c ← broadcast s_sub c (min_val parameters);
  norm_data ← set_col i c norm_data;
  (* norm_data[:,i] = norm_data[:,i] / (max_val + 1e-6) *)
  c ← get_col i norm_data;
  c ← broadcast s_div c (param_add_eps (max_val parameters));
  set_col i c norm_data.

Definition normalization (data : ndarray F) (parameters : option norm_parameters)
    : result (ndarray F * norm_parameters) :=
  let dim := ncols data in
  let norm_data := data in
  match parameters with
  | None =>
      '(norm_data, mins, maxs) ←
        for_range fit_column (seq 0 dim)
          (norm_data, replicate dim s_zero, replicate dim s_zero);
      Ok (norm_data, mk_parameters (PVector mins) (PVector maxs))
  | Some p =>
      norm_data ← for_range (apply_column p) (seq 0 dim) norm_data;
      Ok (norm_data, p)
  end.

(** The body of [try:] in [renormalization], one column. *)
Definition renorm_indexed (p : norm_parameters) (i : nat) (a : ndarray F)
    : result (ndarray F) * ndarray F :=
  (* renorm_data[:,i] = renorm_data[:,i] * (max_val[i] + 1e-6) *)
  match (c ← get_col i a; M ← index (max_val p) i;
         set_col i (map (λ x, s_mul x (s_add M s_eps)) c) a) with
  | Raise e => (Raise e, a)
  | Ok a1 =>
      (* renorm_data[:,i] = renorm_data[:,i] + min_val[i] *)
      match (c ← get_col i a1; m ← index (min_val p) i;
             set_col i (map (λ x, s_add x m) c) a1) with
      | Raise e => (Raise e, a1)
      | Ok a2 => (Ok a2, a2)
      end
  end.

(** The [try:] loop: the result, and the array as the loop left it (what the
    handler goes on with when the loop raised). *)
Fixpoint renorm_try (p : norm_parameters) (indices : list nat) (a : ndarray F)
    : result (ndarray F) * ndarray F :=
  match indices with
  | [] => (Ok a, a)
  | i :: rest =>
      match renorm_indexed p i a with
      | (Ok a', _) => renorm_try p rest a'
      | (Raise e, a') => (Raise e, a')
      end
  end.

(** The body of [except:], one column: the parameters used whole. *)
Definition renorm_whole (p : norm_parameters) (i : nat) (a : ndarray F)
    : result (ndarray F) :=
  c ← get_col i a;
  c ← broadcast s_mul c (param_add_eps (max_val p));
  a ← set_col i c a;
  c ← get_col i a;
  c ← broadcast s_add c (min_val p);
  set_col i c a.

Definition renormalization (norm_data : ndarray F) (p : norm_parameters)
    : result (ndarray F) :=
  let dim := ncols norm_data in
  let renorm_data := norm_data in
  match renorm_try p (seq 0 dim) renorm_data with
  | (Ok a, _) => Ok a
  | (Raise _, a) => for_range (renorm_whole p) (seq 0 dim) a
  end.

(* ----------------------------------------------------------------- *)
(** ** The categorical rounder *)

Definition observed (c : list F) : list F :=
  List.filter (λ x, negb (s_isnan x)) c.

Definition round_column (data_x : ndarray F) (i : nat) (rounded : ndarray F)
    : result (ndarray F) :=
  (* temp = data_x[~np.isnan(data_x[:, i]), i] *)
  cx ← get_col i data_x;
  let temp := observed cx in
  if decide (length (np_unique temp) < 20) then
    (* rounded_data[:, i] = np.round(rounded_data[:, i]) *)
    c ← get_col i rounded;
    set_col i (map s_rint c) rounded
  else Ok rounded.

Definition rounding (imputed_data data_x : ndarray F) : result (ndarray F) :=
  let dim := ncols data_x in
  let rounded_data := imputed_data in
  for_range (round_column data_x) (seq 0 dim) rounded_data.

(* ----------------------------------------------------------------- *)
(** ** The error scorer *)

Definition rmse_loss `{Sqrt F} (ori_data imputed_data data_m : ndarray F)
    : result F :=
  '(ori_data, norm_params) ← normalization ori_data None;
  '(imputed_data, _) ← normalization imputed_data (Some norm_params);
  (* nominator = np.sum(((1-data_m) * ori_data - (1-data_m) * imputed_data)**2) *)
  a ← zip2d s_mul (map2d (s_sub s_one) data_m) ori_data;
  b ← zip2d s_mul (map2d (s_sub s_one) data_m) imputed_data;
  d ← zip2d s_sub a b;
  let nominator := np_sum (map2d (λ x, s_mul x x) d) in
  (* denominator = np.sum(1-data_m) *)
  let denominator := np_sum (map2d (s_sub s_one) data_m) in
  Ok (s_sqrt (s_div nominator denominator)).

End Normalizer.

Arguments norm_parameters F : clear implicits.
Arguments mk_parameters {F} _ _.

(* ================================================================= *)
(** ** The samplers *)

(** numpy's generator: [np.random.seed n] replaces the state; a draw reads
    the state and leaves the next one. *)
Class Generator (G F : Type) : Type := {
  rng_seed : Z → G;
  (* np.random.uniform(low, high, size=[rows, cols]) *)
  rng_uniform : F → F → nat → nat → G → ndarray F * G;
  (* np.random.permutation(n) *)
  rng_permutation : Z → G → list Z * G
}.

(** What numpy documents of the two draws: the shape of the matrix, and that
    [permutation n] rearranges [0 .. n-1]. *)
Class GeneratorLaws (G F : Type) `{Generator G F} : Prop := {
  uniform_shape : ∀ low high r c g,
    ncols (rng_uniform low high r c g).1 = c ∧
    nrows (rng_uniform low high r c g).1 = r ∧
    array_wf (rng_uniform low high r c g).1;
  permutation_perm : ∀ n g,
    (rng_permutation n g).1 ≡ₚ map Z.of_nat (seq 0 (Z.to_nat n))
}.

(** [l[:stop]] on a Python sequence. *)
Definition slice_to {A} (l : list A) (stop : Z) : list A :=
  let n := Z.of_nat (length l) in
  let stop := if (stop <? 0)%Z then Z.max 0 (stop + n) else Z.min stop n in
  take (Z.to_nat stop) l.

Section Samplers.
Context {G F : Type} `{Scalar F} `{Generator G F}.

(** Each sampler maps the generator state before the call to its result and
    the state after it. *)
Definition binary_sampler (p : F) (rows cols : nat) (g : G)
    : result (ndarray Z) * G :=
  let g := rng_seed 7 in
  let '(unif_random_matrix, g) := rng_uniform s_zero s_one rows cols g in
  let binary_random_matrix :=
    map2d (λ u, if s_ltb u p then 1%Z else 0%Z) unif_random_matrix in
  (Ok binary_random_matrix, g).

Definition uniform_sampler (low high : F) (rows cols : nat) (g : G)
    : result (ndarray F) * G :=
  let g := rng_seed 7 in
  let '(m, g) := rng_uniform low high rows cols g in
  (Ok m, g).

Definition sample_batch_index (total batch_size : Z) (g : G)
    : result (list Z) * G :=
  let g := rng_seed 7 in
  let '(total_idx, g) := rng_permutation total g in
  let batch_idx := slice_to total_idx batch_size in
  (Ok batch_idx, g).

(* ----------------------------------------------------------------- *)
(** ** The missingness injector *)

(** Arrays live in a store; [X] and the returned arrays are references into
    it.  The cells are text, the dtype that can hold the marker. *)
Definition sentinel : string := ".|.".

Definition get_data (X : nat) (miss_rate : F)
    (st : gmap nat (ndarray string) * G)
    : result (nat * nat) * (gmap nat (ndarray string) * G) :=
  let '(heap, g) := st in
  match heap !! X with
  | None => (Raise TypeError, (heap, g))
  | Some x =>
      (* no, dim = X.shape *)
      let no := nrows x in
      let dim := ncols x in
      (* data_m = binary_sampler(1-miss_rate, no, dim) *)
      match binary_sampler (s_sub s_one miss_rate) no dim g with
      | (Raise e, g) => (Raise e, (heap, g))
      | (Ok data_m, g) =>
          (* miss_data_x = X.copy() *)
          let miss_data_x := fresh (dom heap) in
          let heap := <[miss_data_x := x]> heap in
          (* miss_data_x[data_m == 0] = ".|." *)
          match mask_assign x (map2d (λ m, bool_decide (m = 0%Z)) data_m) sentinel with
          | Raise e => (Raise e, (heap, g))
          | Ok y => (Ok (X, miss_data_x), (<[miss_data_x := y]> heap, g))
          end
      end
  end.

End Samplers.

(* ----------------------------------------------------------------- *)
(** *** A concrete generator *)

(** A linear congruential generator on binary64, used to run the samplers:
    the state is the last word drawn; [uniform] scales the next words into
    [[low, high)], row by row; [permutation n] rotates [0 .. n-1] by the
    next word. *)
Definition lcg_next (g : Z) : Z := ((1103515245 * g + 12345) mod 2147483648)%Z.

Definition lcg_unit (g : Z) : float :=
  PrimFloat.div (PrimFloat.of_uint63 (Uint63.of_Z g)) 2147483648%float.

Definition lcg_uniform (low high : float) (r c : nat) (g : Z)
    : ndarray float * Z :=
  (mk_array c
     (map (λ i, map (λ j,
             PrimFloat.add low
               (PrimFloat.mul (PrimFloat.sub high low)
                  (lcg_unit (Nat.iter (S (i * c + j)) lcg_next g))))
             (seq 0 c))
          (seq 0 r)),
   Nat.iter (r * c) lcg_next g).

Definition lcg_permutation (n : Z) (g : Z) : list Z * Z :=
  let g' := lcg_next g in
  let l := map Z.of_nat (seq 0 (Z.to_nat n)) in
  let k := Z.to_nat (g' mod Z.max 1 n) in
  (drop k l ++ take k l, g').

#[global] Instance lcg_generator : Generator Z float := {
  rng_seed := λ n, n;
  rng_uniform := lcg_uniform;
  rng_permutation := lcg_permutation
}.

(* ================================================================= *)
(** ** Vocabulary of the statements *)

Section ColumnStep.
Context {A : Type}.
Implicit Types (a nd : ndarray A) (c : list A).

(** [body i] rewrites column [i] with [f i] and touches nothing else. *)
Definition column_step (body : nat → ndarray A → result (ndarray A))
    (f : nat → list A → list A) (width : nat) : Prop :=
  ∀ i nd, array_wf nd → i < width → width ≤ ncols nd →
    ∃ c nd',
      get_col i nd = Ok c ∧ body i nd = Ok nd' ∧
      array_wf nd' ∧ ncols nd' = ncols nd ∧ nrows nd' = nrows nd ∧
      get_col i nd' = Ok (f i c) ∧
      ∀ j, j ≠ i → get_col j nd' = get_col j nd.

(** [body i] rewrites column [i] of an array of [n] rows with [f i] and
    touches nothing else. *)
Definition column_step_rows (body : nat → ndarray A → result (ndarray A))
    (f : nat → list A → list A) (width n : nat) : Prop :=
  ∀ i nd, array_wf nd → i < width → width ≤ ncols nd → nrows nd = n →
    ∃ c nd',
      get_col i nd = Ok c ∧ body i nd = Ok nd' ∧
      array_wf nd' ∧ ncols nd' = ncols nd ∧ nrows nd' = nrows nd ∧
      get_col i nd' = Ok (f i c) ∧
      ∀ j, j ≠ i → get_col j nd' = get_col j nd.

End ColumnStep.

Section ColumnFormulas.
Context {F : Type} `{Scalar F}.
Implicit Types (data nd : ndarray F) (c mins maxs : list F).

(** Column [i] of [nd] and entry [i] of the fitted vectors are what fit mode
    computes from column [i] of [data]: [m] the nanmin of the column, [M] the
    nanmax of the column once [m] has been subtracted, every entry [x]
    turned into [(x - m) / (M + 1e-6)]. *)
Definition fitted_column data nd mins maxs (i : nat) : Prop :=
  ∃ c m M,
    get_col i data = Ok c ∧
    nanmin c = Ok m ∧
    nanmax (map (λ x, s_sub x m) c) = Ok M ∧
    mins !! i = Some m ∧
    maxs !! i = Some M ∧
    get_col i nd = Ok (map (λ x, s_div (s_sub x m) (s_add M s_eps)) c).


(** What [rounding] does to a column of [imputed_data], given the column of
    [data_x] with the same index. *)
Definition rounded_column (data_x : ndarray F) (i : nat) c : list F :=
  match get_col i data_x with
  | Ok cx =>
      if decide (length (np_unique (observed cx)) < 20) then map s_rint c else c
  | Raise _ => c
  end.

End ColumnFormulas.



(** A binary64 value that is a zero of either sign, or not-a-number. *)
Definition zero_or_nan (x : float) : Prop :=
  match Prim2SF x with
  | S754_zero _ | S754_nan => True
  | _ => False
  end.

Definition all_cells {A} (P : A → Prop) (a : ndarray A) : Prop :=
  Forall (Forall P) (rows a).

(* ================================================================= *)
(** * Properties *)

(** ** Loops and columns *)

(** A loop over [lo, lo+n) keeps an invariant that every iteration keeps. *)
Lemma for_range_inv {St} (body : nat → St → result St) (P : nat → St → Prop) n :
  ∀ lo s,
    P lo s →
    (∀ i s, lo ≤ i < lo + n → P i s → ∃ s', body i s = Ok s' ∧ P (S i) s') →
    ∃ s', for_range body (seq lo n) s = Ok s' ∧ P (lo + n) s'.
Proof.
  induction n as [|n IH]; intros lo s HP Hstep; simpl.
  - exists s. by rewrite Nat.add_0_r.
  - destruct (Hstep lo s) as (s1 & Hb & HP1); [lia | done |].
    rewrite Hb. simpl.
    destruct (IH (S lo) s1 HP1) as (s' & Hloop & HP').
    { intros i t Hi. apply Hstep. lia. }
    exists s'. split; [done |]. by replace (lo + S n) with (S lo + n) by lia.
Qed.

Section ColumnFacts.
Context {A : Type}.
Implicit Types (a : ndarray A) (c : list A).

Lemma mapM_lookup_Some i (rs : list (list A)) :
  Forall (λ r, i < length r) rs → is_Some (mapM (λ r : list A, r !! i) rs).
Proof.
  induction 1 as [|r rs Hr _ IH]; simpl; [by eexists |].
  destruct (lookup_lt_is_Some_2 r i Hr) as [x ->]. simpl.
  destruct IH as [k ->]. by eexists.
Qed.

Lemma mapM_lookup_insert_eq i (rs : list (list A)) c :
  Forall (λ r, i < length r) rs → length c = length rs →
  mapM (λ r : list A, r !! i) (zip_with (λ r x, <[i:=x]> r) rs c) = Some c.
Proof.
  intros Hrs. revert c.
  induction Hrs as [|r rs Hr _ IH]; intros [|x c] Hlen; simplify_eq/=; [done |].
  rewrite list_lookup_insert_eq by done. simpl. by rewrite IH.
Qed.

Lemma mapM_lookup_insert_ne i j (rs : list (list A)) c :
  i ≠ j → length c = length rs →
  mapM (λ r : list A, r !! j) (zip_with (λ r x, <[i:=x]> r) rs c)
  = mapM (λ r : list A, r !! j) rs.
Proof.
  intros Hne. revert c.
  induction rs as [|r rs IH]; intros [|x c] Hlen; simplify_eq/=; [done |].
  rewrite list_lookup_insert_ne by done. by rewrite IH.
Qed.

Lemma get_col_ok i a :
  array_wf a → i < ncols a → ∃ c, get_col i a = Ok c ∧ length c = nrows a.
Proof.
  intros Hwf Hi. unfold get_col. rewrite decide_True by done.
  destruct (mapM_lookup_Some i (rows a)) as [c Hc].
  { eapply Forall_impl; [exact Hwf |]. simpl. intros r ->. done. }
  rewrite Hc. exists c. split; [done |].
  symmetry. by eapply length_mapM.
Qed.

Lemma get_col_width i a c : get_col i a = Ok c → i < ncols a.
Proof. unfold get_col. by case_decide. Qed.

Lemma get_col_cell i a c r :
  get_col i a = Ok c → r < nrows a → cell a r i = c !! r.
Proof.
  unfold get_col, cell, nrows. case_decide; [|done].
  destruct (mapM _ _) as [k|] eqn:Hk; [|done].
  intros [= <-] Hr. apply mapM_Some in Hk.
  destruct (lookup_lt_is_Some_2 _ _ Hr) as [row Hrow]. rewrite Hrow. simpl.
  destruct (Forall2_lookup_l _ _ _ _ _ Hk Hrow) as (y & -> & Hy). done.
Qed.

Lemma set_col_ok i a c :
  i < ncols a → length c = nrows a →
  set_col i c a = Ok (mk_array (ncols a) (zip_with (λ r x, <[i:=x]> r) (rows a) c)).
Proof. intros. unfold set_col. by rewrite !decide_True. Qed.

(** Writing a full column keeps the shape, is read back, and leaves the
    other columns alone. *)
Lemma set_col_spec i a c :
  array_wf a → i < ncols a → length c = nrows a →
  ∃ a', set_col i c a = Ok a' ∧ array_wf a' ∧
        ncols a' = ncols a ∧ nrows a' = nrows a ∧
        get_col i a' = Ok c ∧
        ∀ j, j ≠ i → get_col j a' = get_col j a.
Proof.
  intros Hwf Hi Hlen. eexists. split; [by apply set_col_ok |].
  assert (Hbound : Forall (λ r : list A, i < length r) (rows a)).
  { eapply Forall_impl; [exact Hwf |]. simpl. intros r ->. done. }
  repeat split; simpl.
  - unfold array_wf in *. simpl. clear Hbound Hi.
    revert c Hlen. unfold nrows.
    induction Hwf as [|r rs Hr _ IH]; intros [|x c] Hlen; simplify_eq/=;
      constructor; [by rewrite length_insert | by apply IH].
  - unfold nrows in *. simpl. rewrite length_zip_with. lia.
  - unfold get_col. simpl. rewrite decide_True by done.
    by rewrite mapM_lookup_insert_eq.
  - intros j Hj. unfold get_col. simpl.
    by rewrite mapM_lookup_insert_ne.
Qed.

(** Two arrays of one shape with the same cells are the same array. *)
Lemma array_ext a b :
  array_wf a → array_wf b → ncols a = ncols b → nrows a = nrows b →
  (∀ r i, r < nrows a → i < ncols a → cell a r i = cell b r i) → a = b.
Proof.
  destruct a as [n ra], b as [n' rb]. unfold array_wf, nrows, cell. simpl.
  intros Ha Hb <- Hlen Hcell. f_equal.
  apply list_eq_same_length with (length ra); [done | done |].
  intros r x y Hr Hx Hy.
  specialize (Hcell r). rewrite Hx, Hy in Hcell. simpl in Hcell.
  pose proof (Forall_lookup_1 _ _ _ _ Ha Hx) as Hlx.
  pose proof (Forall_lookup_1 _ _ _ _ Hb Hy) as Hly. simpl in *.
  apply list_eq_same_length with n; [done | done |].
  intros i u v Hi Hu Hv. specialize (Hcell i Hr Hi). congruence.
Qed.

Lemma cell_bounds a r i (v : A) :
  array_wf a → cell a r i = Some v → r < nrows a ∧ i < ncols a.
Proof.
  unfold cell, nrows. intros Hwf Hcell.
  destruct (rows a !! r) as [row|] eqn:Hrow; [|done]. simpl in Hcell.
  split; [by eapply lookup_lt_Some |].
  pose proof (Forall_lookup_1 _ _ _ _ Hwf Hrow) as Hlen. simpl in Hlen.
  rewrite <- Hlen. by eapply lookup_lt_Some.
Qed.

Lemma cell_is_Some a r i :
  array_wf a → r < nrows a → i < ncols a → is_Some (cell a r i).
Proof.
  unfold cell, nrows. intros Hwf Hr Hi.
  destruct (lookup_lt_is_Some_2 _ _ Hr) as [row Hrow]. rewrite Hrow. simpl.
  apply lookup_lt_is_Some_2.
  by rewrite (Forall_lookup_1 _ _ _ _ Hwf Hrow).
Qed.

Lemma cell_map2d {B} (f : A → B) a r i :
  cell (map2d f a) r i = f <$> cell a r i.
Proof.
  unfold cell, map2d. simpl. rewrite list_lookup_fmap.
  destruct (rows a !! r) as [row|]; simpl; [|done]. by rewrite list_lookup_fmap.
Qed.

(** A masked assignment keeps the shape and replaces the cells the mask
    hits, and only those. *)
Lemma mask_assign_cell a (mask : ndarray bool) (v : A) :
  ncols mask = ncols a → nrows mask = nrows a →
  ∃ y, mask_assign a mask v = Ok y ∧ ncols y = ncols a ∧ nrows y = nrows a ∧
    ∀ r i, cell y r i =
      (x ← cell a r i; hit ← cell mask r i; Some (if hit : bool then v else x)).
Proof.
  intros Hc Hr. unfold mask_assign. rewrite decide_True by done.
  eexists. split; [done |]. unfold nrows in *. simpl.
  split; [done |]. split; [rewrite length_zip_with; lia |].
  intros r i. unfold cell. simpl. rewrite lookup_zip_with.
  destruct (rows a !! r) as [row|]; simpl; [|done].
  destruct (rows mask !! r) as [mrow|]; simpl.
  - rewrite lookup_zip_with. done.
  - by destruct (row !! i).
Qed.

End ColumnFacts.

(* ================================================================= *)
(** ** Fit-mode normalization, on any carrier *)

Section FitMode.
Context {F : Type} `{Scalar F}.
Implicit Types (data nd : ndarray F) (c mins maxs : list F).

Lemma nanmin_ok c : c ≠ [] → ∃ m, nanmin c = Ok m.
Proof. destruct c; [done |]. by eexists. Qed.

Lemma nanmax_ok c : c ≠ [] → ∃ m, nanmax c = Ok m.
Proof. destruct c; [done |]. by eexists. Qed.

Lemma fit_column_spec i nd mins maxs :
  array_wf nd → i < ncols nd → 0 < nrows nd →
  ∃ c m M nd',
    get_col i nd = Ok c ∧
    nanmin c = Ok m ∧
    nanmax (map (λ x, s_sub x m) c) = Ok M ∧
    fit_column i (nd, mins, maxs) = Ok (nd', <[i:=m]> mins, <[i:=M]> maxs) ∧
    array_wf nd' ∧ ncols nd' = ncols nd ∧ nrows nd' = nrows nd ∧
    get_col i nd' = Ok (map (λ x, s_div (s_sub x m) (s_add M s_eps)) c) ∧
    ∀ j, j ≠ i → get_col j nd' = get_col j nd.
Proof.
  intros Hwf Hi Hrows.
  destruct (get_col_ok i nd Hwf Hi) as (c & Hc & Hlen).
  destruct (nanmin_ok c) as [m Hm].
  { intros ->. simpl in Hlen. lia. }
  destruct (nanmax_ok (map (λ x, s_sub x m) c)) as [M HM].
  { intros E. apply (f_equal length) in E. rewrite length_map in E.
    simpl in E. lia. }
  destruct (set_col_spec i nd (map (λ x, s_sub x m) c) Hwf Hi)
    as (nd1 & Hset1 & Hwf1 & Hcols1 & Hrows1 & Hget1 & Hother1).
  { by rewrite length_map. }
  destruct (set_col_spec i nd1
              (map (λ x, s_div x (s_add M s_eps)) (map (λ x, s_sub x m) c)) Hwf1)
    as (nd2 & Hset2 & Hwf2 & Hcols2 & Hrows2 & Hget2 & Hother2).
  { lia. }
  { rewrite !length_map. lia. }
  exists c, m, M, nd2. repeat split; try done; try congruence.
  - unfold fit_column. rewrite Hc. simpl. rewrite Hm. simpl.
    rewrite Hset1. simpl. rewrite Hget1. simpl. rewrite HM. simpl.
    by rewrite Hset2.
  - rewrite Hget2. f_equal. by rewrite map_map.
  - intros j Hj. by rewrite Hother2, Hother1.
Qed.

(** Every column of a dataset with at least one row is fitted. *)
Lemma normalization_fit_columns data :
  array_wf data → 0 < nrows data →
  ∃ nd mins maxs,
    normalization data None
      = Ok (nd, mk_parameters (PVector mins) (PVector maxs)) ∧
    array_wf nd ∧ ncols nd = ncols data ∧ nrows nd = nrows data ∧
    length mins = ncols data ∧ length maxs = ncols data ∧
    ∀ i, i < ncols data → fitted_column data nd mins maxs i.
Proof.
  intros Hwf Hrows.
  pose (P := λ (k : nat) (st : ndarray F * list F * list F),
    let '(nd, mins, maxs) := st in
    array_wf nd ∧ ncols nd = ncols data ∧ nrows nd = nrows data ∧
    length mins = ncols data ∧ length maxs = ncols data ∧
    (∀ j, k ≤ j → get_col j nd = get_col j data) ∧
    (∀ j, j < k → fitted_column data nd mins maxs j)).
  destruct (for_range_inv fit_column P (ncols data) 0
              (data, replicate (ncols data) s_zero, replicate (ncols data) s_zero))
    as ([[nd mins] maxs] & Hloop & Hfin).
  - simpl. rewrite !length_replicate. repeat split; try done. intros j Hj. lia.
  - intros k [[nd mins] maxs] Hk (Hwf' & Hc' & Hr' & Hlm & HlM & Hrest & Hdone).
    destruct (fit_column_spec k nd mins maxs)
      as (c & m & M & nd' & Hc & Hm & HM & Hstep & Hwf2 & Hc2 & Hr2 & Hget & Hoth);
      [done | lia | lia |].
    eexists. split; [exact Hstep |]. simpl.
    repeat split; try congruence; try (rewrite length_insert; congruence).
    + intros j Hj. rewrite Hoth by lia. apply Hrest. lia.
    + intros j Hj. destruct (decide (j = k)) as [->|Hne].
      * exists c, m, M. rewrite <- Hrest by lia.
        repeat split; try done; apply list_lookup_insert_eq; lia.
      * destruct (Hdone j) as (c0 & m0 & M0 & ? & ? & ? & ? & ? & ?); [lia |].
        exists c0, m0, M0. rewrite !list_lookup_insert_ne by done.
        rewrite Hoth by done. done.
  - exists nd, mins, maxs. simpl in Hfin.
    destruct Hfin as (? & ? & ? & ? & ? & _ & Hall).
    unfold normalization. rewrite Hloop. simpl. done.
Qed.


(** A dataset with columns but no row cannot be fitted: [np.nanmin] of an
    empty column raises. *)
Lemma normalization_fit_empty data :
  nrows data = 0 → 0 < ncols data →
  normalization data None = Raise ValueError.
Proof.
  destruct data as [n rs]. unfold nrows. simpl. intros Hrs Hn.
  apply nil_length_inv in Hrs as ->.
  destruct n as [|n]; [lia |].
  unfold normalization. simpl. unfold fit_column, get_col. simpl. done.
Qed.

End FitMode.

(* ================================================================= *)
(** ** Loops that rewrite one column per iteration *)

Section ColumnLoops.
Context {A : Type}.
Implicit Types (a nd : ndarray A) (c : list A).

Lemma for_range_columns body f width a :
  column_step body f width → array_wf a → width ≤ ncols a →
  ∃ nd,
    for_range body (seq 0 width) a = Ok nd ∧
    array_wf nd ∧ ncols nd = ncols a ∧ nrows nd = nrows a ∧
    (∀ i, i < width → ∃ c, get_col i a = Ok c ∧ get_col i nd = Ok (f i c)) ∧
    (∀ j, width ≤ j → get_col j nd = get_col j a).
Proof.
  intros Hstep Hwf Hwidth.
  pose (P := λ (k : nat) nd,
    array_wf nd ∧ ncols nd = ncols a ∧ nrows nd = nrows a ∧
    (∀ i, i < k → ∃ c, get_col i a = Ok c ∧ get_col i nd = Ok (f i c)) ∧
    (∀ j, k ≤ j → get_col j nd = get_col j a)).
  destruct (for_range_inv body P width 0 a) as (nd & Hloop & Hfin).
  - repeat split; try done. intros i Hi. lia.
  - intros k nd Hk (Hwf' & Hc' & Hr' & Hdone & Hrest).
    destruct (Hstep k nd) as (c & nd' & Hc & Hb & Hwf2 & Hc2 & Hr2 & Hget & Hoth);
      [done | lia | lia |].
    exists nd'. split; [done |]. repeat split; try congruence.
    + intros i Hi. destruct (decide (i = k)) as [->|Hne].
      * exists c. by rewrite <- Hrest.
      * destruct (Hdone i) as (c0 & ? & ?); [lia |].
        exists c0. by rewrite Hoth.
    + intros j Hj. rewrite Hoth by lia. apply Hrest. lia.
  - exists nd. by destruct Hfin as (? & ? & ? & ? & ?).
Qed.

End ColumnLoops.

(* ================================================================= *)
(** ** Apply mode, renormalization and rounding, on any carrier *)

Section ColumnwiseFunctions.
Context {F : Type} `{Scalar F}.
Implicit Types (data nd : ndarray F) (c mins maxs : list F).

(** X1.  Whenever apply mode returns, the parameters it returns are the
    caller's, unchanged. *)
Lemma normalization_apply_parameters data (p p' : norm_parameters F) nd :
  normalization data (Some p) = Ok (nd, p') → p' = p.
Proof.
  unfold normalization.
  destruct (for_range _ _ _); simpl; [|done]. by intros [= _ <-].
Qed.

(** With plain numbers for [min_val] and [max_val], apply mode is the
    formula on every column. *)
Lemma apply_column_scalar_step (m M : F) width :
  column_step (apply_column (mk_parameters (PScalar m) (PScalar M)))
    (λ _ c, map (λ x, s_div (s_sub x m) (s_add M s_eps)) c) width.
Proof.
  intros i nd Hwf Hi Hwidth.
  destruct (get_col_ok i nd Hwf) as (c & Hc & Hlen); [lia |].
  destruct (set_col_spec i nd (map (λ x, s_sub x m) c) Hwf)
    as (nd1 & Hset1 & Hwf1 & Hcols1 & Hrows1 & Hget1 & Hother1);
    [lia | by rewrite length_map |].
  destruct (set_col_spec i nd1
              (map (λ x, s_div x (s_add M s_eps)) (map (λ x, s_sub x m) c)) Hwf1)
    as (nd2 & Hset2 & Hwf2 & Hcols2 & Hrows2 & Hget2 & Hother2);
    [lia | rewrite !length_map; lia |].
  exists c, nd2. repeat split; try done; try congruence.
  - unfold apply_column. rewrite Hc. simpl. rewrite Hset1. simpl.
    rewrite Hget1. simpl. done.
  - rewrite Hget2. f_equal. by rewrite map_map.
  - intros j Hj. by rewrite Hother2, Hother1.
Qed.

(** X2.  With plain numbers [m] and [M] as [min_val] and [max_val], apply
    mode turns every entry [x] of every column into [(x - m) / (M + 1e-6)]
    and returns the parameters. *)
Lemma normalization_apply_scalar data (m M : F) :
  array_wf data →
  ∃ nd,
    normalization data (Some (mk_parameters (PScalar m) (PScalar M)))
      = Ok (nd, mk_parameters (PScalar m) (PScalar M)) ∧
    ∀ i, i < ncols data →
      ∃ c, get_col i data = Ok c ∧
           get_col i nd = Ok (map (λ x, s_div (s_sub x m) (s_add M s_eps)) c).
Proof.
  intros Hwf.
  destruct (for_range_columns _ _ (ncols data) data
              (apply_column_scalar_step m M (ncols data)) Hwf)
    as (nd & Hloop & _ & _ & _ & Hcols & _); [done |].
  exists nd. unfold normalization. rewrite Hloop. done.
Qed.





(** With plain numbers as parameters the [try:] loop raises at its first
    index, before it has written anything. *)
Lemma renorm_try_scalar nd (m M : F) :
  array_wf nd → 0 < ncols nd →
  renorm_try (mk_parameters (PScalar m) (PScalar M)) (seq 0 (ncols nd)) nd
  = (Raise TypeError, nd).
Proof.
  intros Hwf Hcols.
  destruct (get_col_ok 0 nd Hwf Hcols) as (c & Hc & _).
  destruct (ncols nd) as [|n] eqn:E; [lia |].
  simpl. unfold renorm_indexed. by rewrite Hc.
Qed.

Lemma renorm_whole_scalar_step (m M : F) width :
  column_step (renorm_whole (mk_parameters (PScalar m) (PScalar M)))
    (λ _ c, map (λ x, s_add (s_mul x (s_add M s_eps)) m) c) width.
Proof.
  intros i nd Hwf Hi Hwidth.
  destruct (get_col_ok i nd Hwf) as (c & Hc & Hlen); [lia |].
  destruct (set_col_spec i nd (map (λ x, s_mul x (s_add M s_eps)) c) Hwf)
    as (nd1 & Hset1 & Hwf1 & Hcols1 & Hrows1 & Hget1 & Hother1);
    [lia | by rewrite length_map |].
  destruct (set_col_spec i nd1
              (map (λ x, s_add x m) (map (λ x, s_mul x (s_add M s_eps)) c)) Hwf1)
    as (nd2 & Hset2 & Hwf2 & Hcols2 & Hrows2 & Hget2 & Hother2);
    [lia | rewrite !length_map; lia |].
  exists c, nd2. repeat split; try done; try congruence.
  - unfold renorm_whole. rewrite Hc. simpl. rewrite Hset1. simpl.
    rewrite Hget1. simpl. done.
  - rewrite Hget2. f_equal. by rewrite map_map.
  - intros j Hj. by rewrite Hother2, Hother1.
Qed.

(** X3.  With plain numbers [m] and [M] as parameters, [renormalization]
    falls back to its handler and turns every entry [x] of every column
    into [x * (M + 1e-6) + m]. *)
Lemma renormalization_scalar nd (m M : F) :
  array_wf nd →
  ∃ out,
    renormalization nd (mk_parameters (PScalar m) (PScalar M)) = Ok out ∧
    ∀ i, i < ncols nd →
      ∃ c, get_col i nd = Ok c ∧
           get_col i out
           = Ok (map (λ x, s_add (s_mul x (s_add M s_eps)) m) c).
Proof.
  intros Hwf. unfold renormalization.
  destruct (decide (0 < ncols nd)) as [Hcols|Hcols].
  - rewrite renorm_try_scalar by done.
    destruct (for_range_columns _ _ (ncols nd) nd
                (renorm_whole_scalar_step m M (ncols nd)) Hwf)
      as (out & Hloop & _ & _ & _ & Hcolumns & _); [done |].
    by exists out.
  - replace (ncols nd) with 0 by lia. simpl. exists nd.
    split; [done |]. intros i Hi. lia.
Qed.

Lemma round_column_step data_x :
  array_wf data_x →
  column_step (round_column data_x) (rounded_column data_x) (ncols data_x).
Proof.
  intros Hwfx i nd Hwf Hi Hwidth.
  destruct (get_col_ok i nd Hwf) as (c & Hc & Hlen); [lia |].
  destruct (get_col_ok i data_x Hwfx Hi) as (cx & Hcx & _).
  unfold round_column, rounded_column. rewrite Hcx. simpl.
  case_decide.
  - destruct (set_col_spec i nd (map s_rint c) Hwf)
      as (nd1 & Hset1 & Hwf1 & Hcols1 & Hrows1 & Hget1 & Hother1);
      [lia | by rewrite length_map |].
    exists c, nd1. rewrite Hc. simpl. done.
  - exists c, nd. done.
Qed.

Lemma rounding_columns imputed_data data_x :
  array_wf imputed_data → array_wf data_x → ncols imputed_data = ncols data_x →
  ∃ out,
    rounding imputed_data data_x = Ok out ∧
    array_wf out ∧ ncols out = ncols imputed_data ∧
    nrows out = nrows imputed_data ∧
    ∀ i, i < ncols data_x →
      ∃ c, get_col i imputed_data = Ok c ∧
           get_col i out = Ok (rounded_column data_x i c).
Proof.
  intros Hwf Hwfx Hsame.
  destruct (for_range_columns _ _ (ncols data_x) imputed_data
              (round_column_step data_x Hwfx) Hwf)
    as (out & Hloop & ? & ? & ? & Hcols & _); [lia |].
  exists out. done.
Qed.

End ColumnwiseFunctions.

(* ================================================================= *)
(** ** Exact arithmetic of the fitted formulas *)

Section Exact.
Implicit Types (x y lo hi : xnum) (c : list xnum).


















End Exact.

(* ================================================================= *)
(** ** Not-a-number on binary64 *)

Lemma float_is_nan_spec (x : float) :
  PrimFloat.is_nan x = true ↔ Prim2SF x = S754_nan.
Proof.
  split.
  - unfold Prim2SF. by destruct (PrimFloat.is_nan x).
  - intros Hx. unfold PrimFloat.is_nan. by rewrite FloatAxioms.eqb_spec, Hx.
Qed.

Lemma float_sub_nan (x y : float) :
  PrimFloat.is_nan x = true → PrimFloat.is_nan (x - y) = true.
Proof. rewrite !float_is_nan_spec, FloatAxioms.sub_spec. by intros ->. Qed.


(* ================================================================= *)
(** ** The samplers' generator *)

Lemma slice_to_all {A} (l : list A) (stop : Z) :
  (Z.of_nat (length l) ≤ stop)%Z → slice_to l stop = l.
Proof.
  intros Hle. unfold slice_to.
  destruct (stop <? 0)%Z eqn:E.
  - apply Z.ltb_lt in E. destruct l; [by rewrite take_nil | simpl in Hle; lia].
  - apply take_ge. lia.
Qed.

(** The concrete generator draws matrices of the requested shape and
    permutations of the requested range. *)
#[global] Instance lcg_laws : GeneratorLaws Z float.
Proof.
  split.
  - intros low high r c g. simpl. unfold nrows, array_wf. simpl.
    split; [done |]. split.
    + by rewrite length_map, length_seq.
    + apply Forall_forall. intros row [i [-> _]]%list_elem_of_fmap.
      by rewrite length_map, length_seq.
  - intros n g. simpl. rewrite Permutation_app_comm. by rewrite take_drop.
Qed.

(* ================================================================= *)
(** * The claims *)

(** ** Normalizer *)

Section NormalizerClaims.
Local Open Scope float_scope.

(** C1 (the code departs from the claim).  Apply mode subtracts and divides
    by the parameters as a whole: with one parameter per column, numpy pairs
    the vector with the entries of the column, so the entry in row [r] of a
    column is scaled with [min_val[r]] and [max_val[r]], the parameters of
    column [r].  On the 2 by 2 data below the entry of row 1, column 0 is
    [(3 - 1) / (3 + 1e-6)] and not the [(3 - 0) / (1 + 1e-6)] of the claim;
    on data with more rows than columns the call raises. *)
Lemma normalization_apply_vector_by_row :
  normalization (array_of [[1; 2]; [3; 4]])
    (Some (mk_parameters (PVector [0; 1]) (PVector [1; 3])))
  = Ok (array_of [[(1 - 0) / (1 + 1e-6); (2 - 0) / (1 + 1e-6)];
                  [(3 - 1) / (3 + 1e-6); (4 - 1) / (3 + 1e-6)]],
        mk_parameters (PVector [0; 1]) (PVector [1; 3]))
  ∧ ((3 - 1) / (3 + 1e-6) =? (3 - 0) / (1 + 1e-6)) = false
  ∧ normalization (array_of [[1; 2]; [3; 4]; [5; 6]])
      (Some (mk_parameters (PVector [0; 1]) (PVector [1; 3])))
    = Raise ValueError.
Proof. vm_compute. done. Qed.

(** C2 (as stated, refuted).  On the one-column data [[1], [3]] fit mode
    returns [max_val = [2]], the range of the column, while the nanmax of the
    column is 3. *)
Lemma normalization_fit_max_val_is_range :
  ∃ nd p c,
    normalization (array_of [[1]; [3]]) None = Ok (nd, p) ∧
    get_col 0 (array_of [[1]; [3]]) = Ok c ∧
    nanmax c = Ok 3 ∧
    max_val p = PVector [2] ∧
    (2 =? 3) = false.
Proof. vm_compute. by eexists _, _, _. Qed.

End NormalizerClaims.

(** C2 (amended).  For every dataset with at least one row, fit mode returns
    per-column vectors with [min_val[i]] the nanmin of column [i] and
    [max_val[i]] the nanmax of column [i] after [min_val[i]] has been
    subtracted from it (the range of the column, not its maximum), and turns
    every entry [x] of column [i] into [(x - min_val[i]) / (max_val[i] + 1e-6)]. *)
Theorem normalization_fit_spec {F : Type} `{Scalar F} (data : ndarray F) :
  array_wf data → 0 < nrows data →
  ∃ nd mins maxs,
    normalization data None
      = Ok (nd, mk_parameters (PVector mins) (PVector maxs)) ∧
    length mins = ncols data ∧ length maxs = ncols data ∧
    ∀ i, i < ncols data →
      ∃ c m M,
        get_col i data = Ok c ∧
        nanmin c = Ok m ∧
        nanmax (map (λ x, s_sub x m) c) = Ok M ∧
        mins !! i = Some m ∧
        maxs !! i = Some M ∧
        get_col i nd = Ok (map (λ x, s_div (s_sub x m) (s_add M s_eps)) c).
Proof.
  intros Hwf Hrows.
  destruct (normalization_fit_columns data Hwf Hrows)
    as (nd & mins & maxs & Hnorm & _ & _ & _ & Hlm & HlM & Hfit).
  exists nd, mins, maxs. repeat split; try done.
Qed.

Lemma normalization_fit_spec_witness :
  let data := array_of [[1; 2]; [3; nan]; [5; 4]]%float in
  array_wf data ∧ 0 < nrows data ∧
  ∃ nd mins maxs,
    normalization data None
      = Ok (nd, mk_parameters (PVector mins) (PVector maxs)) ∧
    length mins = ncols data ∧ length maxs = ncols data ∧
    ∀ i, i < ncols data →
      ∃ c m M,
        get_col i data = Ok c ∧
        nanmin c = Ok m ∧
        nanmax (map (λ x, s_sub x m) c) = Ok M ∧
        mins !! i = Some m ∧
        maxs !! i = Some M ∧
        get_col i nd = Ok (map (λ x, s_div (s_sub x m) (s_add M s_eps)) c).
Proof.
  assert (Hwf : array_wf (array_of [[1; 2]; [3; nan]; [5; 4]]%float))
    by (repeat constructor).
  assert (Hrows : 0 < nrows (array_of [[1; 2]; [3; nan]; [5; 4]]%float))
    by (unfold nrows; simpl; lia).
  exact (conj Hwf (conj Hrows (normalization_fit_spec _ Hwf Hrows))).
Defined.





(** The round trip of a small dataset on binary64 is exact. *)
Example renormalization_binary64_example :
  (x ← normalization (array_of [[1; 2]; [3; 4]]%float) None;
   renormalization x.1 x.2)
  = Ok (array_of [[1; 2]; [3; 4]]%float).
Proof. vm_compute. done. Qed.

(** ** Error scorer *)

Section ScorerClaims.
Local Open Scope float_scope.

(** The specification's own example: equal data whose fitted minima are all
    zero score 0. *)
Example rmse_loss_spec_example :
  rmse_loss (array_of [[0; 0]; [1; 1]]) (array_of [[0; 0]; [1; 1]])
    (array_of [[1; 1]; [0; 0]]) = Ok 0.
Proof. vm_compute. done. Qed.

(** C4 (the code departs from the claim).  [imputed_data] goes through apply
    mode with the vectors fitted on [ori_data], which apply mode pairs with
    the rows instead of the columns (see C1).  With [ori_data] equal to
    [imputed_data] and the second row held out, the score is above 2 instead
    of 0; with more rows than columns the call raises. *)
Lemma rmse_loss_same_data_nonzero :
  (∃ v, rmse_loss (array_of [[0; 5]; [1; 7]]) (array_of [[0; 5]; [1; 7]])
          (array_of [[1; 1]; [0; 0]]) = Ok v ∧ (2 <? v) = true)
  ∧ rmse_loss (array_of [[0; 5]; [1; 7]; [2; 9]]) (array_of [[0; 5]; [1; 7]; [2; 9]])
      (array_of [[1; 1]; [0; 0]; [1; 1]]) = Raise ValueError.
Proof. vm_compute. split; [by eexists | done]. Qed.

End ScorerClaims.

(** ** Categorical rounder *)



(** C10.  For every pair of arrays of one width, when column [i] of [data_x]
    holds not-a-number only, it has no observed value, hence no distinct
    value, and [rounding] rounds every entry of column [i] of
    [imputed_data]. *)
Theorem rounding_all_nan_column {F : Type} `{Scalar F}
    (imputed_data data_x : ndarray F) (i : nat) (cx : list F) :
  array_wf imputed_data → array_wf data_x →
  ncols imputed_data = ncols data_x →
  get_col i data_x = Ok cx →
  (∀ x, x ∈ cx → s_isnan x = true) →
  np_unique (observed cx) = [] ∧
  ∃ out c,
    rounding imputed_data data_x = Ok out ∧
    get_col i imputed_data = Ok c ∧
    get_col i out = Ok (map s_rint c).
Proof.
  intros Hwf Hwfx Hsame Hcx Hnan.
  assert (Hobs : observed cx = []).
  { unfold observed. clear Hcx. induction cx as [|x t IH]; [done |]. simpl.
    rewrite (Hnan x) by (by left). simpl. apply IH.
    intros y Hy. apply Hnan. by right. }
  split; [by rewrite Hobs |].
  destruct (rounding_columns imputed_data data_x Hwf Hwfx Hsame)
    as (out & Hout & _ & _ & _ & Hcols).
  destruct (Hcols i) as (c & Hc & Hget); [by eapply get_col_width |].
  exists out, c. repeat split; try done.
  unfold rounded_column in Hget. rewrite Hcx, Hobs in Hget.
  rewrite decide_True in Hget; [done | simpl; lia].
Qed.

Lemma rounding_all_nan_column_witness :
  let imputed_data := array_of [[0.4; 1.5]; [2.6; 3.5]]%float in
  let data_x := array_of [[nan; 1]; [nan; 2]]%float in
  array_wf imputed_data ∧ array_wf data_x ∧
  ncols imputed_data = ncols data_x ∧
  get_col 0 data_x = Ok [nan; nan]%float ∧
  (∀ x, x ∈ [nan; nan]%float → s_isnan x = true) ∧
  np_unique (observed [nan; nan]%float) = [] ∧
  ∃ out c,
    rounding imputed_data data_x = Ok out ∧
    get_col 0 imputed_data = Ok c ∧
    get_col 0 out = Ok (map s_rint c).
Proof.
  assert (Hwf : array_wf (array_of [[0.4; 1.5]; [2.6; 3.5]]%float))
    by (repeat constructor).
  assert (Hwfx : array_wf (array_of [[nan; 1]; [nan; 2]]%float))
    by (repeat constructor).
  assert (Hnan : ∀ x, x ∈ [nan; nan]%float → s_isnan x = true).
  { intros x Hx. repeat (apply elem_of_cons in Hx as [->|Hx]; [reflexivity |]).
    by apply elem_of_nil in Hx. }
  exact (conj Hwf (conj Hwfx (conj eq_refl (conj eq_refl (conj Hnan
           (rounding_all_nan_column _ _ 0 _ Hwf Hwfx eq_refl eq_refl Hnan)))))).
Defined.

(** ** Samplers and missingness injector *)

(** C5 (as stated, refuted).  With the concrete generator,
    [sample_batch_index 3 5] returns the three indices of the permutation:
    a slice past the end is cut at the end, nothing is raised. *)
Lemma sample_batch_index_oversized_returns :
  (sample_batch_index (G:=Z) (F:=float) 3 5 0%Z).1 = Ok [0%Z; 1%Z; 2%Z].
Proof. vm_compute. done. Qed.

(** C8 (as stated, refuted).  The data holds the marker already, in a cell
    the mask sets to 0: the copy carries the marker there and does not differ
    from the data in that cell. *)
Lemma get_data_sentinel_cell_unchanged :
  ∃ copy heap' g' data_m y,
    binary_sampler (G:=Z) (1 - 1)%float 1 1 0%Z = (Ok data_m, g') ∧
    cell data_m 0 0 = Some 0%Z ∧
    get_data (G:=Z) 0 1%float ({[ 0 := array_of [[sentinel]] ]}, 0%Z)
      = (Ok (0, copy), (heap', g')) ∧
    heap' !! copy = Some y ∧
    cell y 0 0 = cell (array_of [[sentinel]]) 0 0.
Proof. vm_compute. do 5 eexists. repeat split. Qed.

Section SamplerClaims.
Context {G F : Type} `{Scalar F} `{Generator G F} `{!GeneratorLaws G F}.

(** C5 (amended).  For every [total] and [batch_size] with
    [batch_size > total], [sample_batch_index] raises nothing: it returns
    the whole permutation of [0 .. total-1] drawn after reseeding, that is
    [total] indices (none when [total] is negative). *)
Theorem sample_batch_index_oversized (total batch_size : Z) (g : G) :
  (total < batch_size)%Z →
  ∃ l,
    (sample_batch_index total batch_size g).1 = Ok l ∧
    l = (rng_permutation total (rng_seed 7)).1 ∧
    l ≡ₚ map Z.of_nat (seq 0 (Z.to_nat total)).
Proof.
  intros Hlt. unfold sample_batch_index.
  pose proof (permutation_perm total (rng_seed 7)) as Hperm.
  destruct (rng_permutation total (rng_seed 7)) as [l g'] eqn:E. simpl in *.
  pose proof (Permutation_length Hperm) as Hlen.
  rewrite length_map, length_seq in Hlen.
  exists l. split; [|done]. f_equal.
  destruct (decide (0 ≤ total)%Z).
  - apply slice_to_all. lia.
  - destruct l; [|simpl in Hlen; lia]. unfold slice_to. by rewrite take_nil.
Qed.

(** C6.  Each sampler starts from the state [np.random.seed(7)] installs,
    whatever state the generator was in: called with the same arguments
    from any two states, a sampler returns the same output (and leaves the
    same state behind). *)
Theorem samplers_reseed (g1 g2 : G) :
  (∀ p rows cols,
      binary_sampler p rows cols g1 = binary_sampler p rows cols g2) ∧
  (∀ low high rows cols,
      uniform_sampler low high rows cols g1
      = uniform_sampler low high rows cols g2) ∧
  (∀ total batch_size,
      sample_batch_index (F:=F) total batch_size g1
      = sample_batch_index total batch_size g2).
Proof. repeat split. Qed.

(** C8 (amended).  For every array [X] of the store and every [miss_rate],
    [get_data] returns the reference [X] itself and a fresh reference; the
    store is unchanged but for the fresh reference ([X] is not mutated); the
    new array has the shape of [X], carries the marker in every cell where
    the mask drawn by [binary_sampler (1 - miss_rate) rows cols] is 0 and the
    value of [X] elsewhere, so that it differs from [X] exactly in the cells
    where the mask is 0 and [X] does not hold the marker already. *)
Theorem get_data_frame (X : nat) (miss_rate : F)
    (heap : gmap nat (ndarray string)) (g : G) (x : ndarray string) :
  heap !! X = Some x → array_wf x →
  ∃ copy y data_m g',
    binary_sampler (s_sub s_one miss_rate) (nrows x) (ncols x) g
      = (Ok data_m, g') ∧
    get_data X miss_rate (heap, g) = (Ok (X, copy), (<[copy:=y]> heap, g')) ∧
    heap !! copy = None ∧
    <[copy:=y]> heap !! X = Some x ∧
    ncols y = ncols x ∧ nrows y = nrows x ∧
    ∀ r i v, cell x r i = Some v →
      ∃ mv,
        cell data_m r i = Some mv ∧
        cell y r i = Some (if decide (mv = 0%Z) then sentinel else v) ∧
        (cell y r i ≠ cell x r i ↔ mv = 0%Z ∧ v ≠ sentinel).
Proof.
  intros HX Hwf.
  pose proof (uniform_shape s_zero s_one (nrows x) (ncols x) (rng_seed 7))
    as (Huc & Hur & Huwf).
  unfold get_data, binary_sampler. rewrite HX.
  destruct (rng_uniform s_zero s_one (nrows x) (ncols x) (rng_seed 7))
    as [u g'] eqn:Eu. simpl in Huc, Hur, Huwf.
  set (data_m :=
         map2d (λ t, if s_ltb t (s_sub s_one miss_rate) then 1%Z else 0%Z) u).
  destruct (mask_assign_cell x (map2d (λ m, bool_decide (m = 0%Z)) data_m)
              sentinel) as (y & Hy & Hyc & Hyr & Hcell).
  { done. }
  { unfold nrows in *. simpl. by rewrite !length_map. }
  rewrite Hy.
  assert (Hfresh : heap !! fresh (dom heap) = None).
  { apply not_elem_of_dom, is_fresh. }
  exists (fresh (dom heap)), y, data_m, g'.
  split; [done |]. split; [by rewrite insert_insert_eq |].
  split; [done |]. split.
  { rewrite lookup_insert_ne; [done |]. intros E. congruence. }
  split; [done |]. split; [done |].
  intros r i v Hv.
  destruct (cell_bounds x r i v Hwf Hv) as [Hr Hi].
  destruct (cell_is_Some data_m r i) as [mv Hmv].
  { unfold array_wf in *. simpl. apply Forall_fmap.
    eapply Forall_impl; [exact Huwf |]. simpl. intros row <-.
    by rewrite length_map. }
  { unfold nrows in *. simpl. rewrite length_map. lia. }
  { simpl. lia. }
  exists mv. split; [done |].
  assert (Hyv : cell y r i = Some (if decide (mv = 0%Z) then sentinel else v)).
  { rewrite Hcell, Hv, cell_map2d, Hmv. simpl.
    by destruct (decide (mv = 0%Z));
      [rewrite bool_decide_true | rewrite bool_decide_false]. }
  split; [done |]. rewrite Hyv, Hv.
  destruct (decide (mv = 0%Z)); split.
  - intros Hne. split; [done |]. congruence.
  - intros [_ Hne]. congruence.
  - done.
  - intros [? _]. done.
Qed.

(** X4.  For every [0 <= batch_size <= total], [sample_batch_index] returns
    [batch_size] distinct indices, each in [[0, total)]. *)
Theorem sample_batch_index_distinct (total batch_size : Z) (g : G) :
  (0 ≤ batch_size ≤ total)%Z →
  ∃ l,
    (sample_batch_index total batch_size g).1 = Ok l ∧
    length l = Z.to_nat batch_size ∧
    NoDup l ∧
    ∀ x, x ∈ l → (0 ≤ x < total)%Z.
Proof.
  intros Hb. unfold sample_batch_index.
  pose proof (permutation_perm total (rng_seed 7)) as Hperm.
  destruct (rng_permutation total (rng_seed 7)) as [l g'] eqn:E. simpl in *.
  pose proof (Permutation_length Hperm) as Hlen.
  rewrite length_map, length_seq in Hlen.
  assert (Hslice : slice_to l batch_size = take (Z.to_nat batch_size) l).
  { unfold slice_to. destruct (batch_size <? 0)%Z eqn:Eb.
    - apply Z.ltb_lt in Eb. lia.
    - f_equal. lia. }
  exists (take (Z.to_nat batch_size) l). rewrite Hslice.
  split; [done |]. split; [rewrite length_take; lia |].
  assert (Hnd : NoDup l).
  { rewrite Hperm. apply NoDup_fmap_2; [apply _ | apply NoDup_seq]. }
  split.
  - eapply sublist_NoDup; [exact Hnd | apply sublist_take].
  - intros x Hx. apply (subseteq_take _ l) in Hx. rewrite Hperm in Hx.
    apply list_elem_of_fmap in Hx as (k & -> & Hk).
    apply elem_of_seq in Hk. lia.
Qed.

End SamplerClaims.

Lemma sample_batch_index_oversized_witness :
  (3 < 5)%Z ∧
  ∃ l,
    (sample_batch_index (G:=Z) (F:=float) 3 5 11%Z).1 = Ok l ∧
    l = (rng_permutation (F:=float) 3 (rng_seed (F:=float) 7)).1 ∧
    l ≡ₚ map Z.of_nat (seq 0 (Z.to_nat 3)).
Proof.
  assert (Hlt : (3 < 5)%Z) by lia.
  exact (conj Hlt (sample_batch_index_oversized (G:=Z) (F:=float) 3 5 11%Z Hlt)).
Defined.

Lemma get_data_frame_witness :
  let x := array_of [["0|1"; "1|1"]; ["0|0"; "1|0"]]%string in
  let heap : gmap nat (ndarray string) := {[ 4 := x ]} in
  heap !! 4 = Some x ∧ array_wf x ∧
  ∃ copy y data_m g',
    binary_sampler (G:=Z) (s_sub s_one 0.5%float) (nrows x) (ncols x) 0%Z
      = (Ok data_m, g') ∧
    get_data 4 0.5%float (heap, 0%Z) = (Ok (4, copy), (<[copy:=y]> heap, g')) ∧
    heap !! copy = None ∧
    <[copy:=y]> heap !! 4 = Some x ∧
    ncols y = ncols x ∧ nrows y = nrows x ∧
    ∀ r i v, cell x r i = Some v →
      ∃ mv,
        cell data_m r i = Some mv ∧
        cell y r i = Some (if decide (mv = 0%Z) then sentinel else v) ∧
        (cell y r i ≠ cell x r i ↔ mv = 0%Z ∧ v ≠ sentinel).
Proof.
  assert (Hwf : array_wf (array_of [["0|1"; "1|1"]; ["0|0"; "1|0"]]%string))
    by (repeat constructor).
  assert (HX : ({[ 4 := array_of [["0|1"; "1|1"]; ["0|0"; "1|0"]]%string ]}
                  : gmap nat (ndarray string)) !! 4
               = Some (array_of [["0|1"; "1|1"]; ["0|0"; "1|0"]]%string))
    by (apply lookup_singleton_eq).
  exact (conj HX (conj Hwf
           (get_data_frame (G:=Z) (F:=float) 4 0.5%float _ 0%Z _ HX Hwf))).
Defined.

Lemma sample_batch_index_distinct_witness :
  (0 ≤ 5 ≤ 10)%Z ∧
  ∃ l,
    (sample_batch_index (G:=Z) (F:=float) 10 5 3%Z).1 = Ok l ∧
    length l = Z.to_nat 5 ∧
    NoDup l ∧
    ∀ x, x ∈ l → (0 ≤ x < 10)%Z.
Proof.
  assert (Hb : (0 ≤ 5 ≤ 10)%Z) by lia.
  exact (conj Hb (sample_batch_index_distinct (G:=Z) (F:=float) 10 5 3%Z Hb)).
Defined.

(** ** Apply mode and renormalization with plain numbers *)

Lemma normalization_apply_parameters_witness :
  let data := array_of [[1; 2]; [3; 4]]%float in
  let p := mk_parameters (PScalar 0%float) (PScalar 3%float) in
  let nd := array_of [[(1 - 0) / (3 + 1e-6); (2 - 0) / (3 + 1e-6)];
                      [(3 - 0) / (3 + 1e-6); (4 - 0) / (3 + 1e-6)]]%float in
  normalization data (Some p) = Ok (nd, p) ∧ p = p.
Proof.
  assert (Hrun :
    normalization (array_of [[1; 2]; [3; 4]]%float)
      (Some (mk_parameters (PScalar 0%float) (PScalar 3%float)))
    = Ok (array_of [[(1 - 0) / (3 + 1e-6); (2 - 0) / (3 + 1e-6)];
                    [(3 - 0) / (3 + 1e-6); (4 - 0) / (3 + 1e-6)]]%float,
          mk_parameters (PScalar 0%float) (PScalar 3%float)))
    by (vm_compute; reflexivity).
  exact (conj Hrun (normalization_apply_parameters _ _ _ _ Hrun)).
Defined.

Lemma normalization_apply_scalar_witness :
  let data := array_of [[1; 2]; [3; 4]]%float in
  array_wf data ∧
  ∃ nd,
    normalization data (Some (mk_parameters (PScalar 0%float) (PScalar 3%float)))
      = Ok (nd, mk_parameters (PScalar 0%float) (PScalar 3%float)) ∧
    ∀ i, i < ncols data →
      ∃ c, get_col i data = Ok c ∧
           get_col i nd
           = Ok (map (λ x, s_div (s_sub x 0%float) (s_add 3%float s_eps)) c).
Proof.
  assert (Hwf : array_wf (array_of [[1; 2]; [3; 4]]%float))
    by (repeat constructor).
  exact (conj Hwf (normalization_apply_scalar _ 0%float 3%float Hwf)).
Defined.

Lemma renormalization_scalar_witness :
  let nd := array_of [[0.25; 0.5]; [0.75; 1]]%float in
  array_wf nd ∧
  ∃ out,
    renormalization nd (mk_parameters (PScalar 0%float) (PScalar 3%float))
      = Ok out ∧
    ∀ i, i < ncols nd →
      ∃ c, get_col i nd = Ok c ∧
           get_col i out
           = Ok (map (λ x, s_add (s_mul x (s_add 3%float s_eps)) 0%float) c).
Proof.
  assert (Hwf : array_wf (array_of [[0.25; 0.5]; [0.75; 1]]%float))
    by (repeat constructor).
  exact (conj Hwf (renormalization_scalar _ 0%float 3%float Hwf)).
Defined.

(* ================================================================= *)
(** * Further properties of the code *)

(** ** Further facts on loops, columns and reductions *)

Lemma for_range_app {St} (body : nat → St → result St) l1 l2 s :
  for_range body (l1 ++ l2) s = (s' ← for_range body l1 s; for_range body l2 s').
Proof.
  revert s. induction l1 as [|i l1 IH]; intros s; simpl; [done |].
  destruct (body i s); simpl; [apply IH | done].
Qed.

(** Two arrays of one shape with the same columns are the same array. *)
Lemma array_ext_columns {A} (a b : ndarray A) :
  array_wf a → array_wf b → ncols a = ncols b → nrows a = nrows b →
  (∀ i, i < ncols a → get_col i a = get_col i b) → a = b.
Proof.
  intros Hwa Hwb Hc Hr Hcols.
  apply array_ext; try done. intros r i Hr' Hi.
  destruct (get_col_ok i a Hwa Hi) as (c & Hca & _).
  rewrite (get_col_cell i a c r Hca Hr').
  rewrite (get_col_cell i b c r); [done | by rewrite <- Hcols | lia].
Qed.

Section Reductions.
Context {F : Type} `{Scalar F}.
Implicit Types (c t : list F).







(** On a slice of not-a-number only, both return its first entry. *)
Lemma fold_fmin_all_nan t a :
  (∀ x, x ∈ t → s_isnan x = true) → fold_left fmin t a = a.
Proof.
  revert a. induction t as [|y t IH]; intros a Hnan; simpl; [done |].
  unfold fmin at 2. rewrite (Hnan y) by (by left). rewrite orb_true_r.
  apply IH. intros x Hx. apply Hnan. by right.
Qed.

Lemma fold_fmax_all_nan t a :
  (∀ x, x ∈ t → s_isnan x = true) → fold_left fmax t a = a.
Proof.
  revert a. induction t as [|y t IH]; intros a Hnan; simpl; [done |].
  unfold fmax at 2. rewrite (Hnan y) by (by left). rewrite orb_true_r.
  apply IH. intros x Hx. apply Hnan. by right.
Qed.

Lemma nanmin_all_nan c m :
  (∀ x, x ∈ c → s_isnan x = true) → nanmin c = Ok m → s_isnan m = true.
Proof.
  destruct c as [|a t]; [done |]. simpl. intros Hnan [= <-].
  rewrite fold_fmin_all_nan; [apply Hnan; by left |].
  intros x Hx. apply Hnan. by right.
Qed.

Lemma nanmax_all_nan c m :
  (∀ x, x ∈ c → s_isnan x = true) → nanmax c = Ok m → s_isnan m = true.
Proof.
  destruct c as [|a t]; [done |]. simpl. intros Hnan [= <-].
  rewrite fold_fmax_all_nan; [apply Hnan; by left |].
  intros x Hx. apply Hnan. by right.
Qed.

End Reductions.

Lemma get_col_elem {A} i (a : ndarray A) c x :
  get_col i a = Ok c → x ∈ c → ∃ r, r < nrows a ∧ cell a r i = Some x.
Proof.
  intros Hc Hx. apply list_elem_of_lookup_1 in Hx as [r Hr].
  assert (Hlen : length c = nrows a).
  { unfold get_col in Hc. case_decide; [|done].
    destruct (mapM _ _) as [k|] eqn:Hk; [|done].
    injection Hc as <-. symmetry. by eapply length_mapM. }
  assert (r < nrows a) by (rewrite <- Hlen; by eapply lookup_lt_Some).
  exists r. split; [done |]. by rewrite (get_col_cell i a c r Hc).
Qed.

(** ** Fit mode: edge cases and the fitted parameters *)

(** X6.  A dataset without rows: with a column, fit mode raises (the nanmin of
    an empty column); without columns, it returns the dataset and empty
    parameter vectors. *)
Theorem normalization_fit_no_rows {F : Type} `{Scalar F} (data : ndarray F) :
  nrows data = 0 →
  (0 < ncols data → normalization data None = Raise ValueError) ∧
  (ncols data = 0 →
   normalization data None = Ok (data, mk_parameters (PVector []) (PVector []))).
Proof.
  intros Hrows. split.
  - intros Hcols. by apply normalization_fit_empty.
  - intros Hcols. unfold normalization. by rewrite Hcols.
Qed.

Lemma normalization_fit_no_rows_witness :
  nrows (mk_array 3 ([] : list (list float))) = 0 ∧
  (0 < ncols (mk_array 3 ([] : list (list float))) →
   normalization (mk_array 3 ([] : list (list float))) None = Raise ValueError) ∧
  (ncols (mk_array 3 ([] : list (list float))) = 0 →
   normalization (mk_array 3 ([] : list (list float))) None
   = Ok (mk_array 3 [], mk_parameters (PVector []) (PVector []))).
Proof.
  exact (conj eq_refl (normalization_fit_no_rows (mk_array 3 []) eq_refl)).
Defined.








(** X10.  On binary64, a column of not-a-number only is fitted with not-a-number
    for [min_val] and for [max_val]. *)
Theorem normalization_fit_all_nan_column (data : ndarray float) (i : nat) :
  array_wf data → 0 < nrows data → i < ncols data →
  (∀ r x, cell data r i = Some x → PrimFloat.is_nan x = true) →
  ∃ nd mins maxs m M,
    normalization data None
      = Ok (nd, mk_parameters (PVector mins) (PVector maxs)) ∧
    mins !! i = Some m ∧ PrimFloat.is_nan m = true ∧
    maxs !! i = Some M ∧ PrimFloat.is_nan M = true.
Proof.
  intros Hwf Hrows Hi Hnan.
  destruct (normalization_fit_columns data Hwf Hrows)
    as (nd & mins & maxs & Hnorm & Hwf' & Hcols & Hnrows & _ & _ & Hfit).
  destruct (Hfit i Hi) as (c & m & M & Hc & Hm & HM & Hmi & HMi & Hnd).
  assert (Hall : ∀ x, x ∈ c → s_isnan x = true).
  { intros x Hx. destruct (get_col_elem i data c x Hc Hx) as (r & _ & Hr).
    by eapply Hnan. }
  exists nd, mins, maxs, m, M. repeat split; try done.
  - exact (nanmin_all_nan c m Hall Hm).
  - refine (nanmax_all_nan _ M _ HM).
    intros y (x & -> & Hx)%list_elem_of_fmap.
    apply float_sub_nan. by apply Hall.
Qed.

Lemma normalization_fit_all_nan_column_witness :
  let data := array_of [[nan; 1]; [nan; 2]]%float in
  array_wf data ∧ 0 < nrows data ∧ 0 < ncols data ∧
  (∀ r x, cell data r 0 = Some x → PrimFloat.is_nan x = true) ∧
  ∃ nd mins maxs m M,
    normalization data None
      = Ok (nd, mk_parameters (PVector mins) (PVector maxs)) ∧
    mins !! 0 = Some m ∧ PrimFloat.is_nan m = true ∧
    maxs !! 0 = Some M ∧ PrimFloat.is_nan M = true.
Proof.
  assert (Hwf : array_wf (array_of [[nan; 1]; [nan; 2]]%float))
    by (repeat constructor).
  assert (Hrows : 0 < nrows (array_of [[nan; 1]; [nan; 2]]%float))
    by (unfold nrows; simpl; lia).
  assert (Hcols : 0 < ncols (array_of [[nan; 1]; [nan; 2]]%float))
    by (simpl; lia).
  assert (Hnan : ∀ r x,
            cell (array_of [[nan; 1]; [nan; 2]]%float) r 0 = Some x →
            PrimFloat.is_nan x = true).
  { intros [|[|r]] x; cbn; intros [= <-] || intros [=]; reflexivity. }
  exact (conj Hwf (conj Hrows (conj Hcols (conj Hnan
           (normalization_fit_all_nan_column _ 0 Hwf Hrows Hcols Hnan))))).
Defined.

Section RowLoops.
Context {A : Type}.
Implicit Types (a nd : ndarray A) (c : list A).

Lemma for_range_columns_rows body f width a :
  column_step_rows body f width (nrows a) → array_wf a → width ≤ ncols a →
  ∃ nd,
    for_range body (seq 0 width) a = Ok nd ∧
    array_wf nd ∧ ncols nd = ncols a ∧ nrows nd = nrows a ∧
    (∀ i, i < width → ∃ c, get_col i a = Ok c ∧ get_col i nd = Ok (f i c)).
Proof.
  intros Hstep Hwf Hwidth.
  pose (P := λ (k : nat) nd,
    array_wf nd ∧ ncols nd = ncols a ∧ nrows nd = nrows a ∧
    (∀ i, i < k → ∃ c, get_col i a = Ok c ∧ get_col i nd = Ok (f i c)) ∧
    (∀ j, k ≤ j → get_col j nd = get_col j a)).
  destruct (for_range_inv body P width 0 a) as (nd & Hloop & Hfin).
  - repeat split; try done. intros i Hi. lia.
  - intros k nd Hk (Hwf' & Hc' & Hr' & Hdone & Hrest).
    destruct (Hstep k nd) as (c & nd' & Hc & Hb & Hwf2 & Hc2 & Hr2 & Hget & Hoth);
      [done | lia | lia | done |].
    exists nd'. split; [done |]. repeat split; try congruence.
    + intros i Hi. destruct (decide (i = k)) as [->|Hne].
      * exists c. by rewrite <- Hrest.
      * destruct (Hdone i) as (c0 & ? & ?); [lia |].
        exists c0. by rewrite Hoth.
    + intros j Hj. rewrite Hoth by lia. apply Hrest. lia.
  - exists nd. by destruct Hfin as (? & ? & ? & ? & ?).
Qed.

End RowLoops.

Section ApplyVectors.
Context {F : Type} `{Scalar F}.
Implicit Types (data nd : ndarray F) (c mins maxs : list F).

Lemma broadcast_vector op c v :
  length v = length c → broadcast op c (PVector v) = Ok (zip_with op c v).
Proof. intros Hlen. unfold broadcast. by rewrite decide_True. Qed.

Lemma apply_column_vector_step mins maxs width :
  length maxs = length mins →
  column_step_rows (apply_column (mk_parameters (PVector mins) (PVector maxs)))
    (λ _ c, zip_with s_div (zip_with s_sub c mins)
                     (map (λ x, s_add x s_eps) maxs))
    width (length mins).
Proof.
  intros Hmaxs i nd Hwf Hi Hwidth Hrows.
  destruct (get_col_ok i nd Hwf) as (c & Hc & Hlen); [lia |].
  destruct (set_col_spec i nd (zip_with s_sub c mins) Hwf)
    as (nd1 & Hset1 & Hwf1 & Hcols1 & Hrows1 & Hget1 & Hother1);
    [lia | rewrite length_zip_with; lia |].
  destruct (set_col_spec i nd1
              (zip_with s_div (zip_with s_sub c mins)
                 (map (λ x, s_add x s_eps) maxs)) Hwf1)
    as (nd2 & Hset2 & Hwf2 & Hcols2 & Hrows2 & Hget2 & Hother2);
    [lia | rewrite !length_zip_with, length_map; lia |].
  exists c, nd2. repeat split; try done; try congruence.
  - unfold apply_column. rewrite Hc. cbn [mbind result_bind min_val].
    rewrite broadcast_vector by lia. cbn [mbind result_bind].
    rewrite Hset1. cbn [mbind result_bind]. rewrite Hget1.
    cbn [mbind result_bind param_add_eps max_val].
    rewrite broadcast_vector by (rewrite length_zip_with, length_map; lia).
    done.
  - intros j Hj. by rewrite Hother2, Hother1.
Qed.

(** X11.  With vectors of one entry per row as [min_val] and [max_val], apply
    mode returns, and the entry [x] in row [r] of any column becomes
    [(x - min_val[r]) / (max_val[r] + 1e-6)]: the parameters are paired with
    the rows. *)
Theorem normalization_apply_vector_rows data mins maxs :
  array_wf data → length mins = nrows data → length maxs = nrows data →
  ∃ nd,
    normalization data (Some (mk_parameters (PVector mins) (PVector maxs)))
      = Ok (nd, mk_parameters (PVector mins) (PVector maxs)) ∧
    ∀ r i x, cell data r i = Some x →
      ∃ m M, mins !! r = Some m ∧ maxs !! r = Some M ∧
             cell nd r i = Some (s_div (s_sub x m) (s_add M s_eps)).
Proof.
  intros Hwf Hmins Hmaxs.
  destruct (for_range_columns_rows _ _ (ncols data) data
              (eq_ind _ (λ n, column_step_rows _ _ _ n)
                 (apply_column_vector_step mins maxs (ncols data)
                    (eq_trans Hmaxs (eq_sym Hmins))) _ Hmins) Hwf)
    as (nd & Hloop & Hwf' & Hcols & Hrows & Hcolumns); [done |].
  exists nd. unfold normalization. rewrite Hloop. split; [done |].
  intros r i x Hcell.
  destruct (cell_bounds data r i x Hwf Hcell) as [Hr Hi].
  destruct (lookup_lt_is_Some_2 mins r) as [m Hm]; [lia |].
  destruct (lookup_lt_is_Some_2 maxs r) as [M HM]; [lia |].
  exists m, M. split; [done |]. split; [done |].
  destruct (Hcolumns i Hi) as (c & Hc & Hget).
  rewrite (get_col_cell i data c r Hc Hr) in Hcell.
  rewrite (get_col_cell i nd _ r Hget) by lia.
  rewrite !lookup_zip_with, Hcell, Hm, list_lookup_fmap, HM. done.
Qed.

(** X12.  With a vector for [min_val] whose length is neither the number of rows
    nor one, apply mode raises on any dataset with a column. *)
Theorem normalization_apply_vector_length data mins (M : param F) :
  array_wf data → 0 < ncols data →
  length mins ≠ nrows data → length mins ≠ 1 →
  normalization data (Some (mk_parameters (PVector mins) M)) = Raise ValueError.
Proof.
  intros Hwf Hcols Hlen Hone.
  destruct (get_col_ok 0 data Hwf Hcols) as (c & Hc & Hlenc).
  assert (Hstep : apply_column (mk_parameters (PVector mins) M) 0 data
                  = Raise ValueError).
  { unfold apply_column. rewrite Hc. cbn [mbind result_bind min_val].
    unfold broadcast. rewrite decide_False by lia.
    destruct mins as [|x [|x' mins]]; [| done |].
    - destruct c as [|y [|y' c]]; try done.
      cbn [mbind result_bind map]. unfold set_col.
      rewrite decide_True by lia.
      rewrite decide_False by (simpl in *; lia). done.
    - destruct c as [|y [|y' c]]; try done.
      cbn [mbind result_bind map]. unfold set_col.
      rewrite decide_True by lia.
      rewrite decide_False by (simpl in *; lia). done. }
  unfold normalization.
  destruct (ncols data) as [|n] eqn:E; [lia |].
  cbn [seq for_range mbind result_bind]. by rewrite Hstep.
Qed.

End ApplyVectors.

Lemma normalization_apply_vector_rows_witness :
  let data := array_of [[1; 2]; [3; 4]]%float in
  array_wf data ∧ length [0; 1]%float = nrows data ∧
  length [1; 3]%float = nrows data ∧
  ∃ nd,
    normalization data
      (Some (mk_parameters (PVector [0; 1]%float) (PVector [1; 3]%float)))
      = Ok (nd, mk_parameters (PVector [0; 1]%float) (PVector [1; 3]%float)) ∧
    ∀ r i x, cell data r i = Some x →
      ∃ m M, [0; 1]%float !! r = Some m ∧ [1; 3]%float !! r = Some M ∧
             cell nd r i = Some (s_div (s_sub x m) (s_add M s_eps)).
Proof.
  assert (Hwf : array_wf (array_of [[1; 2]; [3; 4]]%float))
    by (repeat constructor).
  exact (conj Hwf (conj eq_refl (conj eq_refl
           (normalization_apply_vector_rows _ [0; 1]%float [1; 3]%float
              Hwf eq_refl eq_refl)))).
Defined.

Lemma normalization_apply_vector_length_witness :
  let data := array_of [[1; 2]; [3; 4]; [5; 6]]%float in
  array_wf data ∧ 0 < ncols data ∧
  length [0; 1]%float ≠ nrows data ∧ length [0; 1]%float ≠ 1 ∧
  normalization data
    (Some (mk_parameters (PVector [0; 1]%float) (PVector [1; 3]%float)))
  = Raise ValueError.
Proof.
  assert (Hwf : array_wf (array_of [[1; 2]; [3; 4]; [5; 6]]%float))
    by (repeat constructor).
  assert (Hcols : 0 < ncols (array_of [[1; 2]; [3; 4]; [5; 6]]%float))
    by (simpl; lia).
  assert (Hlen : length [0; 1]%float
                 ≠ nrows (array_of [[1; 2]; [3; 4]; [5; 6]]%float))
    by (unfold nrows; simpl; lia).
  assert (Hone : length [0; 1]%float ≠ 1) by (simpl; lia).
  exact (conj Hwf (conj Hcols (conj Hlen (conj Hone
           (normalization_apply_vector_length _ _ (PVector [1; 3]%float)
              Hwf Hcols Hlen Hone))))).
Defined.

(** ** Plain numbers as parameters: the round trip *)



Section Handler.
Context {F : Type} `{Scalar F}.
Implicit Types (nd : ndarray F) (c : list F).

Lemma broadcast_singleton op c (x : F) :
  broadcast op c (PVector [x]) = Ok (map (λ y, op y x) c).
Proof.
  unfold broadcast. case_decide as Hlen; [|done].
  destruct c as [|y [|y' c]]; simplify_eq/=. done.
Qed.

(** X14.  [renormalization] is not all-or-nothing.  With one entry per column
    for [max_val] and a plain number for [min_val], on a dataset of one
    column: the [try:] loop scales the column, then raises on
    [min_val[0]]; the handler goes on with the scaled column and scales it
    again, so every entry [x] ends as
    [(x * (M + 1e-6)) * (M + 1e-6) + m]. *)
Theorem renormalization_handler_rescales nd (m M : F) :
  array_wf nd → ncols nd = 1 →
  ∃ out c,
    get_col 0 nd = Ok c ∧
    renormalization nd (mk_parameters (PScalar m) (PVector [M])) = Ok out ∧
    get_col 0 out
    = Ok (map (λ x, s_add (s_mul (s_mul x (s_add M s_eps)) (s_add M s_eps)) m) c).
Proof.
  intros Hwf Hcols.
  destruct (get_col_ok 0 nd Hwf) as (c & Hc & Hlen); [lia |].
  destruct (set_col_spec 0 nd (map (λ x, s_mul x (s_add M s_eps)) c) Hwf)
    as (a1 & Hset1 & Hwf1 & Hcols1 & Hrows1 & Hget1 & _);
    [lia | by rewrite length_map |].
  destruct (set_col_spec 0 a1
              (map (λ y, s_mul y (s_add M s_eps))
                 (map (λ x, s_mul x (s_add M s_eps)) c)) Hwf1)
    as (a2 & Hset2 & Hwf2 & Hcols2 & Hrows2 & Hget2 & _);
    [lia | rewrite !length_map; lia |].
  destruct (set_col_spec 0 a2
              (map (λ y, s_add y m)
                 (map (λ y, s_mul y (s_add M s_eps))
                    (map (λ x, s_mul x (s_add M s_eps)) c))) Hwf2)
    as (a3 & Hset3 & Hwf3 & Hcols3 & Hrows3 & Hget3 & _);
    [lia | rewrite !length_map; lia |].
  exists a3, c. split; [done |]. split.
  - unfold renormalization. rewrite Hcols.
    cbn [seq renorm_try]. unfold renorm_indexed.
    rewrite Hc. cbn [mbind result_bind index max_val min_val lookup list_lookup].
    rewrite Hset1. rewrite Hget1.
    cbn [mbind result_bind index max_val min_val for_range].
    unfold renorm_whole. rewrite Hget1.
    cbn [mbind result_bind max_val min_val param_add_eps map].
    rewrite broadcast_singleton. cbn [mbind result_bind].
    rewrite Hset2. cbn [mbind result_bind]. rewrite Hget2.
    cbn [mbind result_bind broadcast]. rewrite Hset3. done.
  - rewrite Hget3. f_equal. by rewrite !map_map.
Qed.

End Handler.

Lemma renormalization_handler_rescales_witness :
  let nd := array_of [[0.25]; [0.5]; [1]]%float in
  array_wf nd ∧ ncols nd = 1 ∧
  ∃ out c,
    get_col 0 nd = Ok c ∧
    renormalization nd (mk_parameters (PScalar 0%float) (PVector [3%float]))
      = Ok out ∧
    get_col 0 out
    = Ok (map (λ x, s_add (s_mul (s_mul x (s_add 3%float s_eps))
                             (s_add 3%float s_eps)) 0%float) c).
Proof.
  assert (Hwf : array_wf (array_of [[0.25]; [0.5]; [1]]%float))
    by (repeat constructor).
  exact (conj Hwf (conj eq_refl
           (renormalization_handler_rescales _ 0%float 3%float Hwf eq_refl))).
Defined.

(** ** Rounding twice *)

Lemma Qrint_integer (n : Z) : Qrint (Qred (inject_Z n)) = n.
Proof.
  unfold Qrint.
  assert (Hfloor : Qfloor (Qred (inject_Z n)) = n).
  { rewrite (Qfloor_comp _ _ (Qred_correct (inject_Z n))). apply Qfloor_Z. }
  rewrite Hfloor.
  assert (Hcmp : (Qred (inject_Z n) - inject_Z n ?= 1 # 2)%Q = Lt).
  { assert (E : (Qred (inject_Z n) - inject_Z n == 0)%Q)
      by (rewrite Qred_correct; ring).
    by rewrite (Qcompare_comp _ _ E _ _ (Qeq_refl (1 # 2))). }
  by rewrite Hcmp.
Qed.

Lemma xrint_idempotent (x : xnum) : xrint (xrint x) = xrint x.
Proof.
  destruct x as [a|]; [|done]. simpl. do 3 f_equal.
  apply Qrint_integer.
Qed.

Section RoundingTwice.
Context {F : Type} `{Scalar F}.

(** X15.  When rounding an integer leaves it as it is (as [np.round] does),
    [rounding] applied to its own result changes nothing. *)
Theorem rounding_idempotent (imputed_data data_x out : ndarray F) :
  (∀ x : F, s_rint (s_rint x) = s_rint x) →
  array_wf imputed_data → array_wf data_x →
  ncols imputed_data = ncols data_x →
  rounding imputed_data data_x = Ok out →
  rounding out data_x = Ok out.
Proof.
  intros Hidem Hwf Hwfx Hsame Hout.
  destruct (rounding_columns imputed_data data_x Hwf Hwfx Hsame)
    as (out' & Hout' & Hwfo & Hco & Hro & Hcols).
  rewrite Hout in Hout'. injection Hout' as <-.
  destruct (rounding_columns out data_x Hwfo Hwfx)
    as (out2 & Hout2 & Hwf2 & Hc2 & Hr2 & Hcols2); [congruence |].
  rewrite Hout2. f_equal.
  apply array_ext_columns; [done | done | done | done |].
  intros i Hi.
  destruct (Hcols i) as (c & Hc & Hget); [lia |].
  destruct (Hcols2 i) as (c' & Hc' & Hget'); [lia |].
  rewrite Hget in Hc'. injection Hc' as <-.
  rewrite Hget', Hget. f_equal.
  unfold rounded_column. destruct (get_col i data_x) as [cx|]; [|done].
  case_decide; [|done].
  rewrite map_map. apply map_ext. intros x. apply Hidem.
Qed.

End RoundingTwice.

Lemma rounding_idempotent_witness :
  let imputed_data := array_of [[xq 1 5; xq 1 2]; [xq 17 10; xq 3 2]] in
  let data_x := array_of [[xq 0 1; None]; [xq 1 1; xq 7 1]] in
  let out := array_of [[xq 0 1; xq 0 1]; [xq 2 1; xq 2 1]] in
  (∀ x : xnum, s_rint (s_rint x) = s_rint x) ∧
  array_wf imputed_data ∧ array_wf data_x ∧
  ncols imputed_data = ncols data_x ∧
  rounding imputed_data data_x = Ok out ∧
  rounding out data_x = Ok out.
Proof.
  assert (Hwf : array_wf (array_of [[xq 1 5; xq 1 2]; [xq 17 10; xq 3 2]]))
    by (repeat constructor).
  assert (Hwfx : array_wf (array_of [[xq 0 1; None]; [xq 1 1; xq 7 1]]))
    by (repeat constructor).
  assert (Hrun : rounding (array_of [[xq 1 5; xq 1 2]; [xq 17 10; xq 3 2]])
                   (array_of [[xq 0 1; None]; [xq 1 1; xq 7 1]])
                 = Ok (array_of [[xq 0 1; xq 0 1]; [xq 2 1; xq 2 1]]))
    by (vm_compute; reflexivity).
  exact (conj xrint_idempotent (conj Hwf (conj Hwfx (conj eq_refl (conj Hrun
           (rounding_idempotent _ _ _ xrint_idempotent Hwf Hwfx eq_refl Hrun)))))).
Defined.

(** ** Arrays of different widths in [rounding] *)

Section RoundingWidths.
Context {F : Type} `{Scalar F}.

Lemma round_column_step_upto (data_x : ndarray F) (k : nat) :
  array_wf data_x → k ≤ ncols data_x →
  column_step (round_column data_x) (rounded_column data_x) k.
Proof.
  intros Hwfx Hk i nd Hwf Hi Hwidth.
  destruct (get_col_ok i nd Hwf) as (c & Hc & Hlen); [lia |].
  destruct (get_col_ok i data_x Hwfx) as (cx & Hcx & _); [lia |].
  unfold round_column, rounded_column. rewrite Hcx. simpl.
  case_decide.
  - destruct (set_col_spec i nd (map s_rint c) Hwf)
      as (nd1 & Hset1 & Hwf1 & Hcols1 & Hrows1 & Hget1 & Hother1);
      [lia | by rewrite length_map |].
    exists c, nd1. rewrite Hc. simpl. done.
  - exists c, nd. done.
Qed.

(** X16.  [rounding] loops over the width of [data_x]: the columns of a wider
    [imputed_data] past that width come back as they were. *)
Theorem rounding_wider (imputed_data data_x : ndarray F) :
  array_wf imputed_data → array_wf data_x →
  ncols data_x ≤ ncols imputed_data →
  ∃ out,
    rounding imputed_data data_x = Ok out ∧
    array_wf out ∧ ncols out = ncols imputed_data ∧
    nrows out = nrows imputed_data ∧
    ∀ j, ncols data_x ≤ j → get_col j out = get_col j imputed_data.
Proof.
  intros Hwf Hwfx Hle.
  destruct (for_range_columns _ _ (ncols data_x) imputed_data
              (round_column_step_upto data_x _ Hwfx (Nat.le_refl _)) Hwf Hle)
    as (out & Hloop & ? & ? & ? & _ & Hrest).
  by exists out.
Qed.

(** X17.  With a narrower [imputed_data], [rounding] raises [IndexError] when
    the first column of [data_x] past its width is categorical. *)
Theorem rounding_narrower (imputed_data data_x : ndarray F) (cx : list F) :
  array_wf imputed_data → array_wf data_x →
  ncols imputed_data < ncols data_x →
  get_col (ncols imputed_data) data_x = Ok cx →
  length (np_unique (observed cx)) < 20 →
  rounding imputed_data data_x = Raise IndexError.
Proof.
  intros Hwf Hwfx Hlt Hcx Hcat.
  destruct (for_range_columns _ _ (ncols imputed_data) imputed_data
              (round_column_step_upto data_x _ Hwfx (Nat.lt_le_incl _ _ Hlt))
              Hwf (Nat.le_refl _))
    as (nd & Hloop & Hwfn & Hcn & _).
  unfold rounding.
  replace (ncols data_x)
    with (ncols imputed_data + S (ncols data_x - S (ncols imputed_data)))
    by lia.
  rewrite seq_app, for_range_app, Hloop. rewrite Nat.add_0_l.
  cbn [mbind result_bind seq for_range].
  assert (Hstep : round_column data_x (ncols imputed_data) nd
                  = Raise IndexError).
  { unfold round_column. rewrite Hcx. cbn [mbind result_bind].
    rewrite decide_True by done. unfold get_col.
    by rewrite decide_False by lia. }
  by rewrite Hstep.
Qed.

End RoundingWidths.

Lemma rounding_wider_witness :
  let imputed_data := array_of [[0.2; 0.5]; [1.7; 1.5]]%float in
  let data_x := array_of [[0]; [1]]%float in
  array_wf imputed_data ∧ array_wf data_x ∧
  ncols data_x ≤ ncols imputed_data ∧
  ∃ out,
    rounding imputed_data data_x = Ok out ∧
    array_wf out ∧ ncols out = ncols imputed_data ∧
    nrows out = nrows imputed_data ∧
    ∀ j, ncols data_x ≤ j → get_col j out = get_col j imputed_data.
Proof.
  assert (Hwf : array_wf (array_of [[0.2; 0.5]; [1.7; 1.5]]%float))
    by (repeat constructor).
  assert (Hwfx : array_wf (array_of [[0]; [1]]%float))
    by (repeat constructor).
  assert (Hle : ncols (array_of [[0]; [1]]%float)
                ≤ ncols (array_of [[0.2; 0.5]; [1.7; 1.5]]%float))
    by (simpl; lia).
  exact (conj Hwf (conj Hwfx (conj Hle (rounding_wider _ _ Hwf Hwfx Hle)))).
Defined.

Lemma rounding_narrower_witness :
  let imputed_data := array_of [[0.2]; [1.7]]%float in
  let data_x := array_of [[0; 3]; [1; 4]]%float in
  array_wf imputed_data ∧ array_wf data_x ∧
  ncols imputed_data < ncols data_x ∧
  get_col (ncols imputed_data) data_x = Ok [3; 4]%float ∧
  length (np_unique (observed [3; 4]%float)) < 20 ∧
  rounding imputed_data data_x = Raise IndexError.
Proof.
  assert (Hwf : array_wf (array_of [[0.2]; [1.7]]%float))
    by (repeat constructor).
  assert (Hwfx : array_wf (array_of [[0; 3]; [1; 4]]%float))
    by (repeat constructor).
  assert (Hlt : ncols (array_of [[0.2]; [1.7]]%float)
                < ncols (array_of [[0; 3]; [1; 4]]%float))
    by (simpl; lia).
  assert (Hcat : length (np_unique (observed [3; 4]%float)) < 20)
    by (vm_compute; lia).
  exact (conj Hwf (conj Hwfx (conj Hlt (conj eq_refl (conj Hcat
           (rounding_narrower _ _ _ Hwf Hwfx Hlt eq_refl Hcat)))))).
Defined.

(** ** The order of binary64 *)

Lemma SFcompare_lt_le_trans (a b c : spec_float) :
  SFltb a b = true → SFleb b c = true → SFltb a c = true.
Proof.
  unfold SFltb, SFleb.
  destruct a as [sa| sa| |sa ma ea], b as [sb| sb| |sb mb eb],
           c as [sc| sc| |sc mc ec];
    try (destruct sa); try (destruct sb); try (destruct sc);
    cbn; try done.
  all: destruct (Z.compare_spec ea eb); destruct (Z.compare_spec eb ec);
       destruct (Z.compare_spec ea ec); try done; try lia; subst;
       rewrite ?Pos.compare_cont_spec; cbn;
       destruct (Pos.compare_spec ma mb); destruct (Pos.compare_spec mb mc);
       destruct (Pos.compare_spec ma mc); cbn; try done; try lia.
Qed.

Lemma float_lt_le_trans (u p q : float) :
  PrimFloat.ltb u p = true → PrimFloat.leb p q = true →
  PrimFloat.ltb u q = true.
Proof.
  rewrite !FloatAxioms.ltb_spec, FloatAxioms.leb_spec.
  apply SFcompare_lt_le_trans.
Qed.

(** ** Masks *)

Section Masks.
Context {G F : Type} `{Scalar F} `{Generator G F} `{!GeneratorLaws G F}.

(** X18.  [binary_sampler] returns a matrix of the requested shape whose entries
    are 0 or 1. *)
Theorem binary_sampler_mask (p : F) (rows cols : nat) (g : G) :
  ∃ m g',
    binary_sampler p rows cols g = (Ok m, g') ∧
    array_wf m ∧ ncols m = cols ∧ nrows m = rows ∧
    ∀ r i v, cell m r i = Some v → v = 0%Z ∨ v = 1%Z.
Proof.
  pose proof (uniform_shape s_zero s_one rows cols (rng_seed 7))
    as (Huc & Hur & Huwf).
  unfold binary_sampler.
  destruct (rng_uniform s_zero s_one rows cols (rng_seed 7)) as [u g'] eqn:Eu.
  simpl in Huc, Hur, Huwf.
  eexists _, g'. split; [done |]. repeat split.
  - unfold array_wf in *. simpl. apply Forall_fmap.
    eapply Forall_impl; [exact Huwf |]. simpl. intros row <-.
    by rewrite length_map.
  - done.
  - unfold nrows in *. simpl. by rewrite length_map.
  - intros r i v. rewrite cell_map2d.
    destruct (cell u r i) as [x|]; [|done]. simpl. intros [= <-].
    destruct (s_ltb x p); auto.
Qed.

(** X19.  The masks of one shape are nested in [p]: the draws are the same at
    every call, so when [<] and [<=] compose, a cell that is 1 at [p] is 1
    at every [p'] with [p <= p']. *)
Theorem binary_sampler_monotone (p p' : F) (rows cols : nat) (g g' : G) :
  (∀ u a b : F, s_ltb u a = true → s_leb a b = true → s_ltb u b = true) →
  s_leb p p' = true →
  ∃ m m',
    (binary_sampler p rows cols g).1 = Ok m ∧
    (binary_sampler p' rows cols g').1 = Ok m' ∧
    ∀ r i, cell m r i = Some 1%Z → cell m' r i = Some 1%Z.
Proof.
  intros Htrans Hle. unfold binary_sampler.
  destruct (rng_uniform s_zero s_one rows cols (rng_seed 7)) as [u g1] eqn:Eu.
  eexists _, _. split; [done |]. split; [done |].
  intros r i. rewrite !cell_map2d.
  destruct (cell u r i) as [x|]; [|done]. simpl.
  destruct (s_ltb x p) eqn:E; [|done].
  by rewrite (Htrans x p p' E Hle).
Qed.

End Masks.

Lemma binary_sampler_mask_witness :
  ∃ m g',
    binary_sampler (G:=Z) 0.5%float 4 4 0%Z = (Ok m, g') ∧
    array_wf m ∧ ncols m = 4 ∧ nrows m = 4 ∧
    ∀ r i v, cell m r i = Some v → v = 0%Z ∨ v = 1%Z.
Proof. exact (binary_sampler_mask (G:=Z) 0.5%float 4 4 0%Z). Defined.

Lemma binary_sampler_monotone_witness :
  (∀ u a b : float, s_ltb u a = true → s_leb a b = true → s_ltb u b = true) ∧
  s_leb 0.25%float 0.5%float = true ∧
  ∃ m m',
    (binary_sampler (G:=Z) 0.25%float 4 4 0%Z).1 = Ok m ∧
    (binary_sampler (G:=Z) 0.5%float 4 4 9%Z).1 = Ok m' ∧
    ∀ r i, cell m r i = Some 1%Z → cell m' r i = Some 1%Z.
Proof.
  exact (conj float_lt_le_trans (conj eq_refl
           (binary_sampler_monotone (G:=Z) 0.25%float 0.5%float 4 4 0%Z 9%Z
              float_lt_le_trans eq_refl))).
Defined.

(** ** The length of a batch *)

Section Batches.
Context {G F : Type} `{Generator G F} `{!GeneratorLaws G F}.

(** X20.  For every [total] and [batch_size], [sample_batch_index] returns a
    prefix of the permutation drawn after reseeding; writing [n] for
    [max 0 total], its length is [min batch_size n] when [batch_size] is
    not negative, and [max 0 (n + batch_size)] when it is (a negative stop
    counts from the end). *)
Theorem sample_batch_index_length (total batch_size : Z) (g : G) :
  ∃ l,
    (sample_batch_index total batch_size g).1 = Ok l ∧
    l `prefix_of` (rng_permutation total (rng_seed 7)).1 ∧
    Z.of_nat (length l)
    = if (batch_size <? 0)%Z
      then Z.max 0 (Z.max 0 total + batch_size)
      else Z.min batch_size (Z.max 0 total).
Proof.
  unfold sample_batch_index.
  pose proof (permutation_perm total (rng_seed 7)) as Hperm.
  destruct (rng_permutation total (rng_seed 7)) as [l g'] eqn:E. simpl in *.
  pose proof (Permutation_length Hperm) as Hlen.
  rewrite length_map, length_seq in Hlen.
  eexists. split; [done |]. unfold slice_to. split.
  - apply prefix_take.
  - rewrite length_take, Hlen.
    destruct (Z.ltb_spec batch_size 0); lia.
Qed.

End Batches.

Lemma sample_batch_index_length_witness :
  ∃ l,
    (sample_batch_index (G:=Z) (F:=float) 10 (-3) 5%Z).1 = Ok l ∧
    l `prefix_of` (rng_permutation (G:=Z) (F:=float) 10 (rng_seed (F:=float) 7)).1 ∧
    Z.of_nat (length l)
    = if (-3 <? 0)%Z then Z.max 0 (Z.max 0 10 + -3) else Z.min (-3) (Z.max 0 10).
Proof. exact (sample_batch_index_length (G:=Z) (F:=float) 10 (-3) 5%Z). Defined.

(** ** Calling [get_data] again *)

Section Injector.
Context {G F : Type} `{Scalar F} `{Generator G F} `{!GeneratorLaws G F}.

(** What [get_data] stores and the generator state it leaves depend on the
    array and on [miss_rate] only; the new reference is the first free one. *)
Lemma get_data_run (x : ndarray string) (miss_rate : F) :
  array_wf x →
  ∃ y g1,
    ncols y = ncols x ∧ nrows y = nrows x ∧
    ∀ (X : nat) (heap : gmap nat (ndarray string)) (g : G),
      heap !! X = Some x →
      get_data X miss_rate (heap, g)
      = (Ok (X, fresh (dom heap)), (<[fresh (dom heap) := y]> heap, g1)).
Proof.
  intros Hwf.
  pose proof (uniform_shape s_zero s_one (nrows x) (ncols x) (rng_seed 7))
    as (Huc & Hur & Huwf).
  destruct (rng_uniform s_zero s_one (nrows x) (ncols x) (rng_seed 7))
    as [u g1] eqn:Eu. simpl in Huc, Hur, Huwf.
  destruct (mask_assign_cell x
              (map2d (λ m, bool_decide (m = 0%Z))
                 (map2d (λ t, if s_ltb t (s_sub s_one miss_rate)
                              then 1%Z else 0%Z) u))
              sentinel) as (y & Hy & Hyc & Hyr & _).
  { done. }
  { unfold nrows in *. simpl. by rewrite !length_map. }
  exists y, g1. split; [done |]. split; [done |].
  intros X heap g HX. unfold get_data, binary_sampler.
  rewrite HX, Eu, Hy. by rewrite insert_insert_eq.
Qed.

(** X21.  A second call of [get_data] on the same array with the same rate,
    whatever was drawn in between, allocates another array, with the
    contents of the first copy, and leaves the first copy and [X] as they
    were. *)
Theorem get_data_repeatable (X : nat) (miss_rate : F)
    (heap heap1 : gmap nat (ndarray string)) (g g1 g' : G)
    (x : ndarray string) (copy1 : nat) :
  heap !! X = Some x → array_wf x →
  get_data X miss_rate (heap, g) = (Ok (X, copy1), (heap1, g1)) →
  ∃ copy2 heap2 y,
    get_data X miss_rate (heap1, g') = (Ok (X, copy2), (heap2, g1)) ∧
    copy2 ≠ copy1 ∧
    heap1 !! copy1 = Some y ∧
    heap2 !! copy2 = Some y ∧
    heap2 !! copy1 = Some y ∧
    heap2 !! X = Some x.
Proof.
  intros HX Hwf Hrun.
  destruct (get_data_run x miss_rate Hwf) as (y & gend & _ & _ & Hall).
  rewrite (Hall X heap g HX) in Hrun. injection Hrun as <- <- <-.
  assert (Hfresh : heap !! fresh (dom heap) = None).
  { apply not_elem_of_dom, is_fresh. }
  assert (Hne : fresh (dom heap) ≠ X) by (intros E; congruence).
  assert (HX1 : <[fresh (dom heap):=y]> heap !! X = Some x)
    by (by rewrite lookup_insert_ne).
  exists (fresh (dom (<[fresh (dom heap):=y]> heap))),
         (<[fresh (dom (<[fresh (dom heap):=y]> heap)):=y]>
            (<[fresh (dom heap):=y]> heap)), y.
  assert (Hne2 : fresh (dom (<[fresh (dom heap):=y]> heap)) ≠ fresh (dom heap)).
  { intros E.
    apply (is_fresh (dom (<[fresh (dom heap):=y]> heap))).
    rewrite E. apply elem_of_dom. rewrite lookup_insert_eq. by eexists. }
  split; [by apply Hall |]. split; [done |].
  split; [by rewrite lookup_insert_eq |].
  split; [by rewrite lookup_insert_eq |].
  split; [by rewrite lookup_insert_ne, lookup_insert_eq |].
  rewrite lookup_insert_ne; [done |].
  intros E.
  apply (is_fresh (dom (<[fresh (dom heap):=y]> heap))).
  rewrite E. apply elem_of_dom. by eexists.
Qed.

End Injector.

Lemma get_data_repeatable_witness :
  let x := array_of [["0|1"; "1|1"]; ["0|0"; "1|0"]]%string in
  let heap : gmap nat (ndarray string) := {[ 4 := x ]} in
  ∃ copy1 heap1 g1,
    heap !! 4 = Some x ∧ array_wf x ∧
    get_data (G:=Z) 4 0.5%float (heap, 0%Z) = (Ok (4, copy1), (heap1, g1)) ∧
    ∃ copy2 heap2 y,
      get_data (G:=Z) 4 0.5%float (heap1, 12%Z) = (Ok (4, copy2), (heap2, g1)) ∧
      copy2 ≠ copy1 ∧
      heap1 !! copy1 = Some y ∧
      heap2 !! copy2 = Some y ∧
      heap2 !! copy1 = Some y ∧
      heap2 !! 4 = Some x.
Proof.
  assert (Hwf : array_wf (array_of [["0|1"; "1|1"]; ["0|0"; "1|0"]]%string))
    by (repeat constructor).
  assert (HX : ({[ 4 := array_of [["0|1"; "1|1"]; ["0|0"; "1|0"]]%string ]}
                  : gmap nat (ndarray string)) !! 4
               = Some (array_of [["0|1"; "1|1"]; ["0|0"; "1|0"]]%string))
    by (apply lookup_singleton_eq).
  destruct (get_data_run (G:=Z) (F:=float) _ 0.5%float Hwf)
    as (y & gend & _ & _ & Hall).
  exact (ex_intro _ _ (ex_intro _ _ (ex_intro _ _
           (conj HX (conj Hwf (conj (Hall 4 _ 0%Z HX)
              (get_data_repeatable (G:=Z) 4 0.5%float _ _ 0%Z _ 12%Z _ _
                 HX Hwf (Hall 4 _ 0%Z HX)))))))).
Defined.

(** ** The score when no cell is held out *)

Lemma zero_or_nan_zero : zero_or_nan 0%float.
Proof. unfold zero_or_nan. vm_compute. done. Qed.

Lemma zero_or_nan_mul_zero (y : float) : zero_or_nan (0 * y)%float.
Proof.
  unfold zero_or_nan. rewrite FloatAxioms.mul_spec.
  replace (Prim2SF 0%float) with (S754_zero false) by (vm_compute; done).
  by destruct (Prim2SF y) as [[]|[]| |[] ? ?].
Qed.

Lemma zero_or_nan_sub (x y : float) :
  zero_or_nan x → zero_or_nan y → zero_or_nan (x - y)%float.
Proof.
  unfold zero_or_nan. rewrite FloatAxioms.sub_spec.
  by destruct (Prim2SF x) as [[]|[]| |[] ? ?],
              (Prim2SF y) as [[]|[]| |[] ? ?].
Qed.

Lemma zero_or_nan_mul (x y : float) :
  zero_or_nan x → zero_or_nan y → zero_or_nan (x * y)%float.
Proof.
  unfold zero_or_nan. rewrite FloatAxioms.mul_spec.
  by destruct (Prim2SF x) as [[]|[]| |[] ? ?],
              (Prim2SF y) as [[]|[]| |[] ? ?].
Qed.

Lemma zero_or_nan_add (x y : float) :
  zero_or_nan x → zero_or_nan y → zero_or_nan (x + y)%float.
Proof.
  unfold zero_or_nan. rewrite FloatAxioms.add_spec.
  by destruct (Prim2SF x) as [[]|[]| |[] ? ?],
              (Prim2SF y) as [[]|[]| |[] ? ?].
Qed.

Lemma zero_or_nan_div_zero (x : float) :
  zero_or_nan x → PrimFloat.is_nan (x / 0)%float = true.
Proof.
  unfold zero_or_nan. rewrite float_is_nan_spec, FloatAxioms.div_spec.
  replace (Prim2SF 0%float) with (S754_zero false) by (vm_compute; done).
  by destruct (Prim2SF x) as [[]|[]| |[] ? ?].
Qed.

Lemma float_sqrt_nan (x : float) :
  PrimFloat.is_nan x = true → PrimFloat.is_nan (PrimFloat.sqrt x) = true.
Proof. rewrite !float_is_nan_spec, FloatAxioms.sqrt_spec. by intros ->. Qed.

Lemma all_cells_of_cell {A} (P : A → Prop) (a : ndarray A) :
  (∀ r i x, cell a r i = Some x → P x) → all_cells P a.
Proof.
  intros Hcell. unfold all_cells. apply Forall_lookup. intros r row Hrow.
  apply Forall_lookup. intros i x Hx. apply (Hcell r i).
  unfold cell. by rewrite Hrow.
Qed.

Lemma all_cells_map2d {A B} (P : A → Prop) (Q : B → Prop) (f : A → B) a :
  (∀ x, P x → Q (f x)) → all_cells P a → all_cells Q (map2d f a).
Proof.
  intros Hf Ha. unfold all_cells, map2d in *. simpl.
  apply Forall_fmap. eapply Forall_impl; [exact Ha |]. simpl.
  intros row Hrow. apply Forall_fmap. eapply Forall_impl; [exact Hrow |].
  done.
Qed.

Lemma Forall_zip_with_both {A B C} (P : A → Prop) (Q : B → Prop) (R : C → Prop)
    (f : A → B → C) l k :
  (∀ x y, P x → Q y → R (f x y)) → Forall P l → Forall Q k →
  Forall R (zip_with f l k).
Proof.
  intros Hf Hl. revert k. induction Hl as [|x l Hx _ IH]; intros k Hk; [done |].
  destruct Hk as [|y k Hy Hk]; [done |]. simpl. constructor; auto.
Qed.

Lemma all_cells_zip2d {A B C} (P : A → Prop) (Q : B → Prop) (R : C → Prop)
    (f : A → B → C) a b c :
  (∀ x y, P x → Q y → R (f x y)) → all_cells P a → all_cells Q b →
  zip2d f a b = Ok c → all_cells R c.
Proof.
  intros Hf Ha Hb. unfold zip2d. case_decide; [|done]. intros [= <-].
  unfold all_cells in *. simpl.
  eapply Forall_zip_with_both; [|exact Ha|exact Hb].
  intros row row' Hrow Hrow'. by eapply Forall_zip_with_both.
Qed.

Lemma all_cells_True {A} (a : ndarray A) : all_cells (λ _, True) a.
Proof.
  unfold all_cells. apply Forall_forall. intros row _.
  by apply Forall_forall.
Qed.

Lemma np_sum_zero_or_nan (a : ndarray float) :
  all_cells zero_or_nan a → zero_or_nan (np_sum a).
Proof.
  intros Ha. unfold np_sum.
  assert (Hflat : Forall zero_or_nan (concat (rows a))).
  { unfold all_cells in Ha. induction Ha as [|row rs Hrow _ IH]; [done |].
    simpl. by apply Forall_app. }
  change (@s_zero float float_scalar) with 0%float.
  generalize zero_or_nan_zero. generalize 0%float.
  induction Hflat as [|x l Hx _ IH]; intros acc Hacc; simpl; [done |].
  apply IH. by apply zero_or_nan_add.
Qed.

Lemma np_sum_zeros (a : ndarray float) :
  all_cells (λ x, x = 0%float) a → np_sum a = 0%float.
Proof.
  intros Ha. unfold np_sum.
  assert (Hflat : Forall (λ x, x = 0%float) (concat (rows a))).
  { unfold all_cells in Ha. induction Ha as [|row rs Hrow _ IH]; [done |].
    simpl. by apply Forall_app. }
  change (@s_zero float float_scalar) with 0%float.
  induction Hflat as [|x l -> _ IH]; simpl; [done |]. exact IH.
Qed.

Lemma score_zero_over_zero (n d : float) :
  zero_or_nan n → d = 0%float →
  PrimFloat.is_nan (s_sqrt (s_div n d)) = true.
Proof.
  intros Hn ->. apply float_sqrt_nan. by apply zero_or_nan_div_zero.
Qed.

(** X5.  On binary64, when [data_m] is 1 in every cell (no cell is held out),
    whatever [rmse_loss] returns is not-a-number: the sum of squares is a
    zero or not-a-number, and it is divided by a count of zero.  On square
    data of one shape the call does return. *)
Theorem rmse_loss_no_held_out (ori_data imputed_data data_m : ndarray float) :
  (∀ r i x, cell data_m r i = Some x → x = 1%float) →
  (∀ v, rmse_loss ori_data imputed_data data_m = Ok v →
        PrimFloat.is_nan v = true) ∧
  (array_wf ori_data → array_wf imputed_data →
   0 < nrows ori_data → ncols ori_data = nrows ori_data →
   ncols imputed_data = ncols ori_data → nrows imputed_data = nrows ori_data →
   ncols data_m = ncols ori_data → nrows data_m = nrows ori_data →
   ∃ v, rmse_loss ori_data imputed_data data_m = Ok v).
Proof.
  intros Hones. split.
  - intros v. unfold rmse_loss.
    destruct (normalization ori_data None) as [[on p]|]; [|done].
    cbn [mbind result_bind].
    destruct (normalization imputed_data (Some p)) as [[im p']|]; [|done].
    cbn [mbind result_bind].
    assert (Hw : all_cells (λ x, x = 0%float) (map2d (s_sub s_one) data_m)).
    { apply (all_cells_map2d (λ x, x = 1%float));
        [by intros x -> | by apply all_cells_of_cell]. }
    destruct (zip2d s_mul (map2d (s_sub s_one) data_m) on) as [a|] eqn:Ea;
      [|done].
    destruct (zip2d s_mul (map2d (s_sub s_one) data_m) im) as [b|] eqn:Eb;
      [|done].
    cbn [mbind result_bind].
    destruct (zip2d s_sub a b) as [d|] eqn:Ed; [|done].
    cbn [mbind result_bind]. intros [= <-].
    assert (Ha : all_cells zero_or_nan a).
    { eapply all_cells_zip2d; [|exact Hw|apply (all_cells_True on)|exact Ea].
      simpl. intros x y -> _. apply zero_or_nan_mul_zero. }
    assert (Hb : all_cells zero_or_nan b).
    { eapply all_cells_zip2d; [|exact Hw|apply (all_cells_True im)|exact Eb].
      simpl. intros x y -> _. apply zero_or_nan_mul_zero. }
    assert (Hd : all_cells zero_or_nan d).
    { eapply all_cells_zip2d; [|exact Ha|exact Hb|exact Ed].
      intros x y. apply zero_or_nan_sub. }
    apply score_zero_over_zero; [|exact (np_sum_zeros _ Hw)].
    apply np_sum_zero_or_nan.
    apply (all_cells_map2d zero_or_nan); [|exact Hd]. intros x Hx.
    by apply zero_or_nan_mul.
  - intros Hwf Hwfi Hrows Hsq Hci Hri Hcm Hrm.
    destruct (normalization_fit_columns ori_data Hwf Hrows)
      as (on & mins & maxs & Hnorm & Hwfn & Hcn & Hrn & Hlm & HlM & _).
    assert (Hstep : column_step_rows
              (apply_column (mk_parameters (PVector mins) (PVector maxs)))
              (λ _ c, zip_with s_div (zip_with s_sub c mins)
                        (map (λ x, s_add x s_eps) maxs))
              (ncols imputed_data) (nrows imputed_data)).
    { replace (nrows imputed_data) with (length mins) by lia.
      apply apply_column_vector_step. lia. }
    destruct (for_range_columns_rows _ _ (ncols imputed_data) imputed_data
                Hstep Hwfi) as (im & Hloop & Hwfm & Hcm' & Hrm' & _); [done |].
    unfold rmse_loss. rewrite Hnorm. cbn [mbind result_bind].
    unfold normalization at 1. rewrite Hloop. cbn [mbind result_bind].
    unfold zip2d. unfold nrows in *. simpl. rewrite !length_map.
    rewrite !decide_True by (split; lia). cbn [mbind result_bind].
    simpl. rewrite !length_zip_with, !length_map.
    rewrite decide_True by (split; lia). by eexists.
Qed.

Lemma rmse_loss_no_held_out_witness :
  let ori_data := array_of [[0; 5]; [1; 7]]%float in
  let imputed_data := array_of [[0; 4]; [2; 7]]%float in
  let data_m := array_of [[1; 1]; [1; 1]]%float in
  (∀ r i x, cell data_m r i = Some x → x = 1%float) ∧
  ∃ v, rmse_loss ori_data imputed_data data_m = Ok v ∧
       PrimFloat.is_nan v = true.
Proof.
  assert (Hones : ∀ r i x,
            cell (array_of [[1; 1]; [1; 1]]%float) r i = Some x → x = 1%float).
  { intros [|[|r]] [|[|i]] x; cbn; intros [= <-] || intros [=]; reflexivity. }
  destruct (rmse_loss_no_held_out (array_of [[0; 5]; [1; 7]]%float)
              (array_of [[0; 4]; [2; 7]]%float) _ Hones) as [Hnan Hret].
  destruct Hret as [v Hv];
    [repeat constructor | repeat constructor
     | unfold nrows; simpl; lia | reflexivity | reflexivity | reflexivity
     | reflexivity | reflexivity |].
  exact (conj Hones (ex_intro _ v (conj Hv (Hnan v Hv)))).
Defined.
